(** * The evaluation runtime of elvish: package [eval], file [eval/eval.go]

    A shallow embedding of the runtime context of the shell ([Evaler],
    [evalCtx], [Port]) and of the operations on it.  Go values that are
    shared by reference (pointers, maps, slices) live in an explicit store;
    code that can panic runs in a state-and-panic monad. *)

From Stdlib Require Import ZArith Lia Ascii String.
From stdpp Require Import gmap strings list fin_maps pretty.

Set Warnings "-register-all,-clear-no-such-hyp".
Local Open Scope Z_scope.

(** ** Errors *)

(** [errutil.ContextualError], as the runtime builds it in [errorf]. *)
Record ContextualError := mkContextualError {
  ce_srcname : string;
  ce_title : string;
  ce_text : string;
  ce_pos : Z;
  ce_msg : string
}.

(** The dynamic types of an [error] that this file tells apart.  [Error]
    is the struct with the single field [inner]; a nil [error] is [None]. *)
Inductive error :=
  | multiError (errors : list Error)
  | flow (msg : string)
  | contextualError (c : ContextualError)
  | otherError (msg : string)
with Error :=
  | mkError (inner : option error).

Definition inner (c : Error) : option error :=
  match c with mkError e => e end.

(** ** The store *)

Abbreviation addr := nat.

(** A Go pointer: [None] is nil. *)
Abbreviation ptr := (option addr).

(** [Port], declared elsewhere in the package: a file, a channel of
    values, and whether to close each on exit.  The literal
    [&Port{p.File, p.Chan, false, false}] of [fork] fixes the order of
    the fields. *)
Record Port := mkPort {
  File : ptr;
  Chan : ptr;
  CloseFile : bool;
  CloseChan : bool
}.

(** A builtin has a name and an implementation, here its number. *)
Record BuiltinFn := mkBuiltinFn {
  Name : string;
  Impl : nat
}.

(** The values that [NewEvaler] stores. *)
Inductive Value :=
  | VString (s : string)
  | VBool (b : bool)
  | VOK
  | VList (vs : list Value)
  | VBuiltinFn (b : BuiltinFn).

(** The interface [Variable]: a pointer to a value cell, or a variable
    backed by the process environment. *)
Inductive Var :=
  | ptrVariable (valuePtr : addr)
  | envVariable (name : string).

(** [ns] is [map[string]Variable]; a Go map is a reference. *)
Abbreviation ns := (gmap string Var).

Record Evaler := mkEvaler {
  ev_global : ptr;
  ev_mod : gmap string ptr;
  ev_searchPaths : list string;
  ev_store : ptr;
  ev_Editor : ptr
}.

(** [evalCtx].  [ec_ports] is the slice [[]*Port]: a reference to its
    backing array, nil when [None]. *)
Record evalCtx := mkEvalCtx {
  ec_Evaler : ptr;
  ec_name : string;
  ec_text : string;
  ec_context : string;
  ec_local : ptr;
  ec_up : ptr;
  ec_ports : ptr
}.

Inductive runtimeError :=
  | nilDereference
  | indexOutOfRange
  | lenOutOfRange
  | nilMapAssign
  | sendOnClosedChannel
  | closeOfClosedChannel.

(** What a panic carries: the exception of [errutil.Throw], or a fault of
    the Go runtime. *)
Inductive panicValue :=
  | exception (cause : error)
  | runtimePanic (e : runtimeError).

(** One typed store per kind of object; an address is an index, and
    allocation appends.  [recovered] logs the panic values that [recover]
    has handed out. *)
Record State := mkState {
  hCtx : list evalCtx;
  hPort : list Port;
  hArr : list (list ptr);
  hNs : list ns;
  hEvaler : list Evaler;
  hBox : list Value;
  recovered : list panicValue
}.

Definition setCtx (f : list evalCtx → list evalCtx) (h : State) : State :=
  mkState (f (hCtx h)) (hPort h) (hArr h) (hNs h) (hEvaler h) (hBox h) (recovered h).
Definition setPort (f : list Port → list Port) (h : State) : State :=
  mkState (hCtx h) (f (hPort h)) (hArr h) (hNs h) (hEvaler h) (hBox h) (recovered h).
Definition setArr (f : list (list ptr) → list (list ptr)) (h : State) : State :=
  mkState (hCtx h) (hPort h) (f (hArr h)) (hNs h) (hEvaler h) (hBox h) (recovered h).
Definition setNs (f : list ns → list ns) (h : State) : State :=
  mkState (hCtx h) (hPort h) (hArr h) (f (hNs h)) (hEvaler h) (hBox h) (recovered h).
Definition setEvaler (f : list Evaler → list Evaler) (h : State) : State :=
  mkState (hCtx h) (hPort h) (hArr h) (hNs h) (f (hEvaler h)) (hBox h) (recovered h).
Definition setBox (f : list Value → list Value) (h : State) : State :=
  mkState (hCtx h) (hPort h) (hArr h) (hNs h) (hEvaler h) (f (hBox h)) (recovered h).
Definition setRecovered (f : list panicValue → list panicValue) (h : State) : State :=
  mkState (hCtx h) (hPort h) (hArr h) (hNs h) (hEvaler h) (hBox h) (f (recovered h)).

Definition deref {A} (store : list A) (p : ptr) : option A :=
  a ← p; store !! a.

(** ** Computations that may panic *)

Inductive outcome (A : Type) :=
  | Returned (a : A)
  | Panicked (r : panicValue).
Arguments Returned {A} a.
Arguments Panicked {A} r.

Definition Exec (A : Type) : Type := State → outcome A * State.

Definition ret {A} (a : A) : Exec A := fun h => (Returned a, h).

(** A panic in [m] unwinds through the rest of the frame. *)
Definition bind {A B} (m : Exec A) (k : A → Exec B) : Exec B :=
  fun h => match m h with
           | (Returned a, h1) => k a h1
           | (Panicked r, h1) => (Panicked r, h1)
           end.

Definition panic {A} (r : panicValue) : Exec A := fun h => (Panicked r, h).

Definition get : Exec State := fun h => (Returned h, h).
Definition modify (f : State → State) : Exec unit := fun h => (Returned tt, f h).

#[global] Instance Exec_ret : MRet Exec := @ret.
#[global] Instance Exec_bind : MBind Exec := fun A B k m => bind m k.

(** [*p] for a pointer into [store]. *)
Definition load {A} (store : State → list A) (p : ptr) : Exec A :=
  fun h => match deref (store h) p with
           | Some x => (Returned x, h)
           | None => (Panicked (runtimePanic nilDereference), h)
           end.

(** The elements of a slice; the nil slice has none. *)
Definition elems (h : State) (s : ptr) : list ptr :=
  default [] (deref (hArr h) s).

(** [len(s)] *)
Definition len (h : State) (s : ptr) : Z := Z.of_nat (length (elems h s)).

(** The limit of the runtime on the memory of one slice, 2^48 bytes on
    the 64-bit targets, and the size of a pointer. *)
Definition maxAlloc : Z := 281474976710656.
Definition ptrSize : Z := 8.

(** A new array of [n] nils. *)
Definition alloc (n : nat) : Exec ptr :=
  fun h => (Returned (Some (length (hArr h))),
            setArr (fun arrs => arrs ++ [replicate n None]) h).

(** [make([]*Port, n)]: the runtime panics on a negative length and on a
    length whose memory passes the limit, before it allocates. *)
Definition make (n : Z) : Exec ptr :=
  if (n <? 0) || (maxAlloc <? n * ptrSize)
  then panic (runtimePanic lenOutOfRange)
  else alloc (Z.to_nat n).

(** [make([]*Port, len(s))] for a slice [s] of the store: no slice is
    longer than [make] allows, so this call allocates. *)
Definition makeLen (h : State) (s : ptr) : Exec ptr :=
  alloc (length (elems h s)).

(** [s[i]] *)
Definition index (s : ptr) (i : Z) : Exec ptr :=
  fun h => if (i <? 0) || (len h s <=? i)
           then (Panicked (runtimePanic indexOutOfRange), h)
           else match elems h s !! Z.to_nat i with
                | Some p => (Returned p, h)
                | None => (Panicked (runtimePanic indexOutOfRange), h)
                end.

(** [s[i] = p] *)
Definition assign (s : ptr) (i : Z) (p : ptr) : Exec unit :=
  fun h => if (i <? 0) || (len h s <=? i)
           then (Panicked (runtimePanic indexOutOfRange), h)
           else match s with
                | Some a => (Returned tt,
                             setArr (alter (fun l => <[Z.to_nat i := p]> l) a) h)
                | None => (Panicked (runtimePanic indexOutOfRange), h)
                end.

(** [copy(dst, src)]: the first [min(len(dst), len(src))] elements. *)
Definition copy (dst src : ptr) : Exec Z :=
  fun h => let n := Nat.min (length (elems h dst)) (length (elems h src)) in
           let moved := take n (elems h src) in
           (Returned (Z.of_nat n),
            match dst with
            | Some a => setArr (alter (fun l => moved ++ drop n l) a) h
            | None => h
            end).

(** [&Port{...}] *)
Definition newPort (p : Port) : Exec ptr :=
  fun h => (Returned (Some (length (hPort h))), setPort (fun s => s ++ [p]) h).

(** [&evalCtx{...}] *)
Definition newCtx (c : evalCtx) : Exec ptr :=
  fun h => (Returned (Some (length (hCtx h))), setCtx (fun s => s ++ [c]) h).

(** ** Contexts *)

(** A map literal [ns{...}]. *)
Definition newNs (m : ns) : Exec ptr :=
  fun h => (Returned (Some (length (hNs h))), setNs (fun s => s ++ [m]) h).

(** [NewTopEvalCtx]: the up namespace is a new empty map. *)
Definition NewTopEvalCtx (ev : ptr) (name text : string) (ports : ptr) : Exec ptr :=
  e ← load hEvaler ev;
  up ← newNs ∅;
  newCtx (mkEvalCtx ev name text "top" (ev_global e) up ports).

(** The body of the [range] loop of [fork], from index [i] on. *)
Fixpoint forkPorts (newPorts : ptr) (i : Z) (ps : list ptr) : Exec unit :=
  match ps with
  | [] => ret tt
  | p :: rest =>
      q ← load hPort p;
      np ← newPort (mkPort (File q) (Chan q) false false);
      assign newPorts i np;;
      forkPorts newPorts (i + 1) rest
  end.

(** [fork]; its [make] is given the length of [ec.ports]. *)
Definition fork (ec : ptr) (newContext : string) : Exec ptr :=
  c ← load hCtx ec;
  h ← get;
  newPorts ← makeLen h (ec_ports c);
  forkPorts newPorts 0 (elems h (ec_ports c));;
  newCtx (mkEvalCtx (ec_Evaler c) (ec_name c) (ec_text c) newContext
                    (ec_local c) (ec_up c) newPorts).

Definition port (ec : ptr) (i : Z) : Exec ptr :=
  c ← load hCtx ec;
  h ← get;
  if len h (ec_ports c) <=? i then ret None
  else index (ec_ports c) i.

(** [ec.ports = s] through the pointer [ec]. *)
Definition setPorts (ec : ptr) (s : ptr) : Exec unit :=
  c ← load hCtx ec;
  match ec with
  | Some a =>
      modify (setCtx (fun cs => <[a := mkEvalCtx (ec_Evaler c) (ec_name c) (ec_text c)
                                       (ec_context c) (ec_local c) (ec_up c) s]> cs))
  | None => panic (runtimePanic nilDereference)
  end.

Definition growPorts (ec : ptr) (n : Z) : Exec unit :=
  c ← load hCtx ec;
  h ← get;
  if n <=? len h (ec_ports c) then ret tt
  else
    let ports := ec_ports c in
    fresh ← make n;
    setPorts ec fresh;;
    copy fresh ports;;
    ret tt.

(** ** Protected evaluation *)

(** An [Op] is a Go function that takes the [evalCtx] pointer. *)
Definition Op : Type := ptr → Exec unit.

(** [recover()] in a deferred call: hands out the panic in flight, if any,
    and stops the unwinding. *)
Definition recover (inflight : option panicValue) : Exec (option panicValue) :=
  match inflight with
  | None => ret None
  | Some r => modify (setRecovered (fun l => l ++ [r]));; ret (Some r)
  end.

(** Modelled from the spec: [throw], missing from the sources, raises the
    non-local exit signal that carries the error. *)
Definition throw {A} (e : error) : Exec A := panic (exception e).

(** Modelled from the spec: [errutil.Catch], missing from the sources,
    intercepts the signals of [throw] and stores their error in [*perr];
    the spec gives it nothing else to intercept, so any other panic keeps
    unwinding. *)
Definition Catch (inflight : option panicValue) (perr : option error)
  : Exec (option error) :=
  r ← recover inflight;
  match r with
  | None => ret perr
  | Some (exception cause) => ret (Some cause)
  | Some other => panic other
  end.

(** [PEval]: [defer errutil.Catch(&ex)] runs when [op(ec)] has returned
    and [ex] is nil, or while a panic of [op(ec)] unwinds. *)
Definition PEval (ec : ptr) (op : Op) : Exec (option error) :=
  fun h => match op ec h with
           | (Returned _, h1) => Catch None None h1
           | (Panicked r, h1) => Catch (Some r) None h1
           end.

Section Runtime.

(** [fmt.Sprintf], and the [Error] method of [errutil.ContextualError]. *)
Variable fmtArg : Type.
Variable Sprintf : string → list fmtArg → string.
Variable ContextualError_Error : ContextualError → string.

(** Modelled from the spec: [errutil.NewContextualError], missing from
    the sources, composes the error of the source name, the tag, the
    full source text, the byte position and the formatted message. *)
Definition NewContextualError (srcname title text : string) (pos : Z)
    (format : string) (args : list fmtArg) : error :=
  contextualError (mkContextualError srcname title text pos (Sprintf format args)).

(** [errorf]; the source name is [fmt.Sprintf("%s (%s)", ec.name, ec.context)]. *)
Definition errorf (ec : ptr) (p : Z) (format : string) (args : list fmtArg)
  : Exec unit :=
  c ← load hCtx ec;
  throw (NewContextualError (ec_name c +:+ " (" +:+ ec_context c +:+ ")") "error"
                            (ec_text c) p format args).

(** The error that [errorf] raises from a context named [name] whose
    label is [label]. *)
Definition raised (name label text : string) (p : Z) (format : string)
    (args : list fmtArg) : error :=
  contextualError
    (mkContextualError (name +:+ " (" +:+ label +:+ ")") "error" text p
                       (Sprintf format args)).

(** ** Error presentation *)

(** The [Error] method, for the dynamic types [PprintError] prints with. *)
Definition Error_method (e : error) : string :=
  match e with
  | multiError _ => ""
  | flow msg => msg
  | contextualError c => ContextualError_Error c
  | otherError msg => msg
  end.

Definition ESC : string := String (Ascii.ascii_of_nat 27) "".

(** [fmt.Print] on the standard output [out]. *)
Definition Print (s : string) (out : string) : string := out +:+ s.

(** The [range] loop over the parts of an aggregate, from index [i] on;
    [pp] is the recursive call [PprintError(c.inner)] on a part that is
    not nil. *)
Definition rangeErrors (pp : error → string → string)
  : Z → list Error → string → string :=
  fix range (i : Z) (cs : list Error) (out : string) {struct cs} : string :=
    match cs with
    | [] => out
    | c :: rest =>
        let out := if 0 <? i then Print " | " out else out in
        let out := match c with
                   | mkError None => Print (ESC +:+ "[32mok" +:+ ESC +:+ "[m") out
                   | mkError (Some e') => pp e' out
                   end in
        range (i + 1) rest out
    end.

Fixpoint PprintError_error (e : error) (out : string) {struct e} : string :=
  match e with
  | multiError errors =>
      let out := Print "(" out in
      let out := rangeErrors PprintError_error 0 errors out in
      Print ")" out
  | flow _ => Print (ESC +:+ "[33m" +:+ Error_method e +:+ ESC +:+ "[m") out
  | _ => Print (ESC +:+ "[31;1m" +:+ Error_method e +:+ ESC +:+ "[m") out
  end.

(** [PprintError], on the standard output. *)
Definition PprintError (e : option error) (out : string) : string :=
  match e with
  | None => Print (ESC +:+ "[32mok" +:+ ESC +:+ "[m") out
  | Some e => PprintError_error e out
  end.

End Runtime.

(** ** Variable resolution *)

(** Modelled from the spec: [newEnvVariable], missing from the sources,
    synthesizes the binding backed by the environment variable [name]. *)
Definition newEnvVariable (name : string) : Var := envVariable name.

(** The map behind a namespace reference; reading a nil map finds nothing. *)
Definition nsAt (h : State) (r : ptr) : ns := default ∅ (deref (hNs h) r).

Definition ResolveVar (ec : ptr) (ns name : string) : Exec (option Var) :=
  if decide (ns = "env") then ret (Some (newEnvVariable name))
  else
    c ← load hCtx ec;
    e ← load hEvaler (ec_Evaler c);
    h ← get;
    match ev_mod e !! ns with
    | Some mod_ => ret (nsAt h mod_ !! name)
    | None =>
        let may (n : string) : bool := bool_decide (ns = "") || bool_decide (ns = n) in
        let fromUp : option Var :=
          if may "up" then nsAt h (ec_up c) !! name else None in
        if may "local" then
          match nsAt h (ec_local c) !! name with
          | Some v => ret (Some v)
          | None => ret fromUp
          end
        else ret fromUp
    end.

(** ** Construction of the Evaler *)

Definition FnPrefix : string := "&".

(** What [NewEvaler] reads of the hosting process. *)
Record Host := mkHost {
  environ : gmap string string;
  getpid : Z
}.

(** [os.Getenv]: the empty string when the variable is unset. *)
Definition Getenv (host : Host) (key : string) : string :=
  default "" (environ host !! key).

(** [strings.Split(s, sep)] for a separator of one byte. *)
Fixpoint Split (s : string) (sep : ascii) : list string :=
  match s with
  | EmptyString => [""]
  | String c rest =>
      if decide (c = sep) then "" :: Split rest sep
      else match Split rest sep with
           | [] => [String c ""]
           | w :: ws => String c w :: ws
           end
  end.

(** [strconv.Itoa] *)
Definition Itoa (n : Z) : string := pretty n.

(** Modelled from the spec: [NewList] and [appendStrings], missing from
    the sources, build the list value of the given strings. *)
Definition NewList : Value := VList [].
Definition appendStrings (l : Value) (ss : list string) : Value :=
  match l with
  | VList vs => VList (vs ++ (VString <$> ss))
  | _ => l
  end.

(** Modelled from the spec: [newPtrVariable], missing from the sources,
    makes a new storage cell that holds the value. *)
Definition newPtrVariable (v : Value) : Exec Var :=
  fun h => (Returned (ptrVariable (length (hBox h))), setBox (fun s => s ++ [v]) h).

(** [&Evaler{...}] *)
Definition newEvaler (e : Evaler) : Exec ptr :=
  fun h => (Returned (Some (length (hEvaler h))), setEvaler (fun s => s ++ [e]) h).

(** [m[key] = v] *)
Definition mapassign (m : ptr) (key : string) (v : Var) : Exec unit :=
  fun h => match m with
           | Some a => (Returned tt, setNs (alter (fun g => <[key := v]> g) a) h)
           | None => (Panicked (runtimePanic nilMapAssign), h)
           end.

(** The loop over [builtinFns]. *)
Fixpoint bindBuiltins (global : ptr) (fns : list BuiltinFn) : Exec unit :=
  match fns with
  | [] => ret tt
  | b :: rest =>
      v ← newPtrVariable (VBuiltinFn b);
      mapassign global (FnPrefix +:+ Name b) v;;
      bindBuiltins global rest
  end.

Definition NewEvaler (host : Host) (builtinFns : list BuiltinFn) (st : ptr)
  : Exec ptr :=
  let path := Getenv host "PATH" in
  let searchPaths :=
    if decide (path ≠ "") then Split path ":"%char else ["/bin"] in
  let pid := VString (Itoa (getpid host)) in
  let paths := appendStrings NewList searchPaths in
  vpid ← newPtrVariable pid;
  vok ← newPtrVariable VOK;
  vtrue ← newPtrVariable (VBool true);
  vfalse ← newPtrVariable (VBool false);
  vpaths ← newPtrVariable paths;
  global ← newNs (<["paths" := vpaths]> (<["false" := vfalse]> (<["true" := vtrue]>
                  (<["ok" := vok]> (<["pid" := vpid]> ∅)))));
  bindBuiltins global builtinFns;;
  newEvaler (mkEvaler global ∅ searchPaths st None).

(** ** The interactive output relay *)

(** [EvalInteractive] runs two threads of control, the caller and the worker
    it starts with [go], over the channels [outCh] and [outDone].  Each
    thread is a program counter with a step function that is [None] where
    the thread is blocked or has ended; a schedule picks who moves. *)
Module Relay.

Definition outChanSize : Z := 32.
Definition outChanLeader : string := "▶ ".

(** What [ev.Eval] does with port 1 while it runs: it puts a value on the
    channel, or writes to the file. *)
Inductive action :=
  | Send (v : Value)
  | WriteFile (s : string).

Inductive thread :=
  | Caller
  | Worker.

Inductive callerPc :=
  | InEval (todo : list action) (res : outcome (option error))
  | CloseOutCh (err : option error)
  | AwaitOutDone (err : option error)
  | Return_ (err : option error)
  | Unwinding (r : panicValue).

Inductive workerPc :=
  | Range
  | Printf (v : Value)
  | CloseOutDone
  | Exited.

Record state := mkRelay {
  outCh : list Value;
  outChClosed : bool;
  outDoneClosed : bool;
  stdout : list (thread * string);
  caller : callerPc;
  worker : workerPc
}.

Section Steps.

(** The method [Repr] of a value. *)
Variable Repr : Value → string.

(** [fmt.Printf("%s%s\n", outChanLeader, v.Repr())] *)
Definition line (v : Value) : string :=
  outChanLeader +:+ Repr v +:+ String (Ascii.ascii_of_nat 10) "".

Definition stepCaller (st : state) : option state :=
  match caller st with
  | InEval (Send v :: todo) res =>
      if outChClosed st then
        Some (mkRelay (outCh st) (outChClosed st) (outDoneClosed st) (stdout st)
                      (Unwinding (runtimePanic sendOnClosedChannel)) (worker st))
      else if Z.of_nat (length (outCh st)) <? outChanSize then
        Some (mkRelay (outCh st ++ [v]) (outChClosed st) (outDoneClosed st)
                      (stdout st) (InEval todo res) (worker st))
      else None
  | InEval (WriteFile s :: todo) res =>
      Some (mkRelay (outCh st) (outChClosed st) (outDoneClosed st)
                    (stdout st ++ [(Caller, s)]) (InEval todo res) (worker st))
  | InEval [] (Returned err) =>
      Some (mkRelay (outCh st) (outChClosed st) (outDoneClosed st) (stdout st)
                    (CloseOutCh err) (worker st))
  | InEval [] (Panicked r) =>
      Some (mkRelay (outCh st) (outChClosed st) (outDoneClosed st) (stdout st)
                    (Unwinding r) (worker st))
  | CloseOutCh err =>
      if outChClosed st then
        Some (mkRelay (outCh st) (outChClosed st) (outDoneClosed st) (stdout st)
                      (Unwinding (runtimePanic closeOfClosedChannel)) (worker st))
      else
        Some (mkRelay (outCh st) true (outDoneClosed st) (stdout st)
                      (AwaitOutDone err) (worker st))
  | AwaitOutDone err =>
      if outDoneClosed st then
        Some (mkRelay (outCh st) (outChClosed st) (outDoneClosed st) (stdout st)
                      (Return_ err) (worker st))
      else None
  | Return_ _ => None
  | Unwinding _ => None
  end.

Definition stepWorker (st : state) : option state :=
  match worker st with
  | Range =>
      match outCh st with
      | v :: rest =>
          Some (mkRelay rest (outChClosed st) (outDoneClosed st) (stdout st)
                        (caller st) (Printf v))
      | [] =>
          if outChClosed st then
            Some (mkRelay [] (outChClosed st) (outDoneClosed st) (stdout st)
                          (caller st) CloseOutDone)
          else None
      end
  | Printf v =>
      Some (mkRelay (outCh st) (outChClosed st) (outDoneClosed st)
                    (stdout st ++ [(Worker, line v)]) (caller st) Range)
  | CloseOutDone =>
      Some (mkRelay (outCh st) (outChClosed st) true (stdout st)
                    (caller st) Exited)
  | Exited => None
  end.

Definition step (t : thread) (st : state) : option state :=
  match t with
  | Caller => stepCaller st
  | Worker => stepWorker st
  end.

(** The state after the threads have moved in the order of [sched]. *)
Fixpoint run (sched : list thread) (st : state) : option state :=
  match sched with
  | [] => Some st
  | t :: rest => st' ← step t st; run rest st'
  end.

End Steps.

(** [EvalInteractive], up to the call of [ev.Eval]: both channels are
    open and empty, the worker has been started, and [ev.Eval] is about
    to perform [todo] and end with [res]. *)
Definition EvalInteractive (todo : list action) (res : outcome (option error))
  : state :=
  mkRelay [] false false [] (InEval todo res) Range.

(** The [ports] that [EvalInteractive] hands to [ev.Eval]: the three
    standard files, and the channel [outCh] on descriptor 1 alone.  The
    fields that the literal leaves out are zero. *)
Definition ports (stdin stdout stderr outCh : addr) : list Port :=
  [mkPort (Some stdin) None false false;
   mkPort (Some stdout) (Some outCh) false false;
   mkPort (Some stderr) None false false].

(** The values of the [Send]s of an evaluation, in order. *)
Definition sent (todo : list action) : list Value :=
  omap (fun a => match a with Send v => Some v | WriteFile _ => None end) todo.

(** What the worker has written. *)
Definition rendered (out : list (thread * string)) : list string :=
  omap (fun w => match w with (Worker, s) => Some s | (Caller, _) => None end) out.

(** The value that the worker has taken from the channel and not yet
    written. *)
Definition inHand (w : workerPc) : list Value :=
  match w with
  | Printf v => [v]
  | _ => []
  end.

(** The values that the evaluation has yet to send. *)
Definition unsent (c : callerPc) : list Value :=
  match c with
  | InEval todo _ => sent todo
  | _ => []
  end.

(** The worker is still in its loop. *)
Definition ranging (w : workerPc) : bool :=
  match w with
  | Range | Printf _ => true
  | CloseOutDone | Exited => false
  end.

(** How the program counters and the channels go together, for an
    evaluation that ends with [res]. *)
Definition coherent (res : outcome (option error)) (st : state) : Prop :=
  match caller st with
  | InEval _ res' =>
      res' = res ∧ outChClosed st = false ∧ outDoneClosed st = false
      ∧ ranging (worker st) = true
  | CloseOutCh err =>
      res = Returned err ∧ outChClosed st = false ∧ outDoneClosed st = false
      ∧ ranging (worker st) = true
  | AwaitOutDone err =>
      res = Returned err ∧ outChClosed st = true ∧
      match worker st with
      | Range | Printf _ => outDoneClosed st = false
      | CloseOutDone => outCh st = [] ∧ outDoneClosed st = false
      | Exited => outCh st = [] ∧ outDoneClosed st = true
      end
  | Return_ err =>
      res = Returned err ∧ outChClosed st = true ∧ outDoneClosed st = true
      ∧ worker st = Exited ∧ outCh st = []
  | Unwinding r =>
      res = Panicked r ∧ outChClosed st = false ∧ outDoneClosed st = false
      ∧ ranging (worker st) = true
  end.

(** The steps that are left at most: a bound on every schedule. *)
Definition fuel (st : state) : nat :=
  (match caller st with
   | InEval todo _ => length todo + 3
   | CloseOutCh _ => 2
   | AwaitOutDone _ => 1
   | Return_ _ | Unwinding _ => 0
   end
   + 2 * (length (outCh st) + length (unsent (caller st)))
   + match worker st with
     | Range => 2
     | Printf _ => 3
     | CloseOutDone => 1
     | Exited => 0
     end)%nat.

(** What holds at every point of a run of [EvalInteractive todo res]:
    the lines written, the value in the worker's hand, the values in the
    channel and the values yet to be sent make up the values sent, in
    this order; the channel is within its capacity. *)
Definition inv (Repr : Value → string) (todo : list action)
    (res : outcome (option error)) (st : state) : Prop :=
  rendered (stdout st)
    ++ (line Repr <$> (inHand (worker st) ++ outCh st ++ unsent (caller st)))
    = line Repr <$> sent todo
  ∧ Z.of_nat (length (outCh st)) ≤ outChanSize
  ∧ coherent res st.

End Relay.

(** ** Notions used by the statements *)

(** The Port sequence of the context at [ec]. *)
Definition portsOf (h : State) (ec : ptr) : list ptr :=
  match deref (hCtx h) ec with
  | Some c => elems h (ec_ports c)
  | None => []
  end.

(** An entry of a Port sequence is present when it points to a Port. *)
Definition present (h : State) (p : ptr) : Prop := is_Some (deref (hPort h) p).

(** The copy that [fork] makes of a Port. *)
Definition forked (q : Port) : Port := mkPort (File q) (Chan q) false false.

(** [body] run in a chain of forked contexts, one per label, the
    outermost first. *)
Fixpoint inForks (labels : list string) (body : Op) : Op :=
  fun ec =>
    match labels with
    | [] => body ec
    | l :: rest => child ← fork ec l; inForks rest body child
    end.

(** The value that the global namespace [g] binds to [key]. *)
Definition valueOf (h : State) (g : ns) (key : string) : option Value :=
  v ← g !! key;
  match v with
  | ptrVariable a => hBox h !! a
  | envVariable _ => None
  end.

(** The names that [bindBuiltins] binds. *)
Definition fnKey (b : BuiltinFn) : string := FnPrefix +:+ Name b.

Section Rendering.

Variable ContextualError_Error : ContextualError → string.

Definition green (s : string) : string := ESC +:+ "[32m" +:+ s +:+ ESC +:+ "[m".
Definition yellow (s : string) : string := ESC +:+ "[33m" +:+ s +:+ ESC +:+ "[m".
Definition boldRed (s : string) : string := ESC +:+ "[31;1m" +:+ s +:+ ESC +:+ "[m".

(** The rendering of an error as the specification words it: by kind,
    an aggregate as its parts in order between parentheses, separated
    by the delimiter. *)
Fixpoint render_error (e : error) : string :=
  match e with
  | multiError errors =>
      "(" +:+ String.concat " | "
                (map (fun c => match c with
                               | mkError None => green "ok"
                               | mkError (Some e') => render_error e'
                               end) errors) +:+ ")"
  | flow msg => yellow msg
  | contextualError c => boldRed (ContextualError_Error c)
  | otherError msg => boldRed msg
  end.

Definition render (e : option error) : string :=
  match e with
  | None => green "ok"
  | Some e => render_error e
  end.

(** The rendering of a part of an aggregate. *)
Definition renderPart (c : Error) : string := render (inner c).

End Rendering.

(** The parts behind the first one, each with the delimiter in front. *)
Definition delimited (parts : list string) : string :=
  foldr (fun part acc => " | " +:+ part +:+ acc) "" parts.

(** ** Closed forms of the states that the operations leave *)

(** The state that [growPorts] leaves when it has to grow. *)
Definition grown (h : State) (a : addr) (c : evalCtx) (n : Z) : State :=
  mkState (<[a := mkEvalCtx (ec_Evaler c) (ec_name c) (ec_text c) (ec_context c)
                            (ec_local c) (ec_up c) (Some (length (hArr h)))]> (hCtx h))
          (hPort h)
          (hArr h ++ [elems h (ec_ports c) ++
                      replicate (Z.to_nat n - length (elems h (ec_ports c))) None])
          (hNs h) (hEvaler h) (hBox h) (recovered h).

(** The state that [fork] leaves when every entry of the parent is
    present: one new context, one new array, and one new Port per entry. *)
Definition forkedState (h : State) (c : evalCtx) (newContext : string)
    (qs : list Port) : State :=
  mkState (hCtx h ++ [mkEvalCtx (ec_Evaler c) (ec_name c) (ec_text c) newContext
                                (ec_local c) (ec_up c) (Some (length (hArr h)))])
          (hPort h ++ (forked <$> qs))
          (hArr h ++ [Some <$> seq (length (hPort h)) (length qs)])
          (hNs h) (hEvaler h) (hBox h) (recovered h).

(** The global namespace after the loop over the builtins, when the next
    free storage cell is [base]. *)
Fixpoint bindAll (base : nat) (fns : list BuiltinFn) (g : ns) : ns :=
  match fns with
  | [] => g
  | b :: rest => bindAll (S base) rest (<[fnKey b := ptrVariable base]> g)
  end.

(** Whether the byte [c] occurs in [s]. *)
Fixpoint occurs (c : ascii) (s : string) : bool :=
  match s with
  | EmptyString => false
  | String x rest => bool_decide (x = c) || occurs c rest
  end.

(** The search path that [NewEvaler] resolves. *)
Definition resolvedPaths (host : Host) : list string :=
  match environ host !! "PATH" with
  | Some path => if decide (path = "") then ["/bin"] else Split path ":"%char
  | None => ["/bin"]
  end.

(** The five fixed bindings, when the next free storage cell is [base]. *)
Definition fixedGlobals (base : nat) : ns :=
  <["paths" := ptrVariable (base + 4)]> (<["false" := ptrVariable (base + 3)]>
  (<["true" := ptrVariable (base + 2)]> (<["ok" := ptrVariable (base + 1)]>
  (<["pid" := ptrVariable base]> ∅)))).

(** The state that [NewEvaler] leaves. *)
Definition builtState (host : Host) (builtinFns : list BuiltinFn) (st : ptr)
    (h : State) : State :=
  mkState (hCtx h) (hPort h) (hArr h)
          (hNs h ++ [bindAll (length (hBox h) + 5) builtinFns
                             (fixedGlobals (length (hBox h)))])
          (hEvaler h ++ [mkEvaler (Some (length (hNs h))) ∅ (resolvedPaths host) st None])
          (hBox h ++ [VString (Itoa (getpid host)); VOK; VBool true; VBool false;
                      VList (VString <$> resolvedPaths host)]
                  ++ (VBuiltinFn <$> builtinFns))
          (recovered h).

(** ** Scopes, compilation and the entry points *)

(** [scope], declared elsewhere in the package: the names that the
    compiler can see.  [sc[name] = true] shows it to be a map to bool. *)
Abbreviation scope := (gmap string bool).

(** The loop of [makeScope], over the names in the order [names]. *)
Definition makeScopeOver (names : list string) : scope :=
  foldl (fun sc name => <[name := true]> sc) ∅ names.

(** [makeScope]; Go does not fix the order in which [range] visits a map,
    here it is the order of [map_to_list]. *)
Definition makeScope (s : ns) : scope := makeScopeOver (map_to_list s).*1.

(** [Global]: the map of the global namespace itself. *)
Definition Global (ev : ptr) : Exec ptr :=
  e ← load hEvaler ev;
  ret (ev_global e).

Section Compilation.

(** [*parse.Chunk], and the function [compile] of the package, which is
    not in this file. *)
Variable Chunk : Type.
Variable compile : string → string → scope → Chunk → Op * option error.

Definition Compile (ev : ptr) (name text : string) (n : Chunk)
  : Exec (Op * option error) :=
  e ← load hEvaler ev;
  h ← get;
  ret (compile name text (makeScope (nsAt h (ev_global e))) n).

(** The method [Eval] of the Evaler; [Eval] alone is a keyword here. *)
Definition Evaler_Eval (ev : ptr) (name text : string) (n : Chunk) (ports : ptr)
  : Exec (option error) :=
  r ← Compile ev name text n;
  match r.2 with
  | Some err => ret (Some err)
  | None =>
      ec ← NewTopEvalCtx ev name text ports;
      PEval ec r.1
  end.

(** [ioutil.ReadFile], [utf8.Valid] and [parse.Parse], and
    [EvalInteractive] as the caller sees it. *)
Variable ReadFile : string → string * option error.
Variable Valid : string → bool.
Variable Parse : string → Chunk * option error.
Variable EvalInteractive : ptr → string → Chunk → Exec (option error).

Definition SourceText (ev : ptr) (src : string) : Exec (option error) :=
  let (n, err) := Parse src in
  match err with
  | Some err => ret (Some err)
  | None => EvalInteractive ev src n
  end.

(** [fmt.Errorf("%s: source is not valid UTF-8", fname)] is an error
    whose message is the file name and the fixed text. *)
Definition readFileUTF8 (fname : string) : string * option error :=
  let (bytes, err) := ReadFile fname in
  match err with
  | Some err => ("", Some err)
  | None =>
      if negb (Valid bytes)
      then ("", Some (otherError (fname +:+ ": source is not valid UTF-8")))
      else (bytes, None)
  end.

Definition Source (ev : ptr) (fname : string) : Exec (option error) :=
  let (src, err) := readFileUTF8 fname in
  match err with
  | Some err => ret (Some err)
  | None => SourceText ev src
  end.

End Compilation.

Section Words.

(** [fmt.Sprintf] and the arguments that [mustSingleString] formats: a
    string, an int and a value. *)
Variable fmtArg : Type.
Variable Sprintf : string → list fmtArg → string.
Variable argString : string → fmtArg.
Variable argInt : Z → fmtArg.
Variable argValue : Value → fmtArg.

(** [vs[0]] on a slice of values. *)
Definition first (vs : list Value) : Exec Value :=
  match vs !! 0%nat with
  | Some v => ret v
  | None => panic (runtimePanic indexOutOfRange)
  end.

(** [mustSingleString]; [v, ok := vs[0].(String)] leaves [v] empty when
    the value is no string. *)
Definition mustSingleString (ec : ptr) (vs : list Value) (what : string) (p : Z)
  : Exec string :=
  (if decide (Z.of_nat (length vs) ≠ 1)
   then errorf fmtArg Sprintf ec p "Expect exactly one word for %s, got %d"
               [argString what; argInt (Z.of_nat (length vs))]
   else ret tt);;
  x ← first vs;
  let (v, ok) := match x with
                 | VString s => (s, true)
                 | _ => ("", false)
                 end in
  (if negb ok
   then errorf fmtArg Sprintf ec p "Expect string for %s, got %s"
               [argString what; argValue x]
   else ret tt);;
  ret v.

End Words.

(** ** More notions used by the statements *)

(** The slice is nil or has its backing array. *)
Definition validSlice (h : State) (s : ptr) : Prop :=
  s = None ∨ is_Some (deref (hArr h) s).

(** The state that [NewTopEvalCtx] leaves: one new empty namespace and one
    new context. *)
Definition topState (h : State) (ev : ptr) (e : Evaler) (name text : string)
    (ports : ptr) : State :=
  mkState (hCtx h ++ [mkEvalCtx ev name text "top" (ev_global e)
                                (Some (length (hNs h))) ports])
          (hPort h) (hArr h) (hNs h ++ [∅]) (hEvaler h) (hBox h) (recovered h).

(** [ResolveVar] for [q:key] in a top-level context of a newly made
    Evaler. *)
Definition resolveAtTop (host : Host) (builtinFns : list BuiltinFn) (st : ptr)
    (name text : string) (ports : ptr) (q key : string) : Exec (option Var) :=
  ev ← NewEvaler host builtinFns st;
  ec ← NewTopEvalCtx ev name text ports;
  ResolveVar ec q key.

(** What the caller has written to the file of port 1. *)
Definition written (out : list (Relay.thread * string)) : list string :=
  omap (fun w => match w with
                 | (Relay.Caller, s) => Some s
                 | (Relay.Worker, _) => None
                 end) out.

(** The writes to the file among the actions of an evaluation, in order. *)
Definition writes (todo : list Relay.action) : list string :=
  omap (fun a => match a with
                 | Relay.WriteFile s => Some s
                 | Relay.Send _ => None
                 end) todo.

(** The writes that the evaluation has yet to make. *)
Definition unwritten (c : Relay.callerPc) : list string :=
  match c with
  | Relay.InEval todo _ => writes todo
  | _ => []
  end.

(** ** Sample states *)

(** A context with two Ports, a local and an up namespace, and an Evaler
    with one module. *)
Definition sampleCtx : evalCtx :=
  mkEvalCtx (Some 0%nat) "script.elv" "put a" "top" (Some 0%nat) (Some 1%nat) (Some 0%nat).

Definition sampleState : State :=
  mkState [sampleCtx]
          [mkPort (Some 0%nat) None true false; mkPort (Some 1%nat) (Some 0%nat) true true]
          [[Some 0%nat; Some 1%nat]]
          [{["x" := ptrVariable 0%nat]}; {["y" := ptrVariable 1%nat]};
           {["f" := ptrVariable 2%nat]}]
          [mkEvaler (Some 0%nat) {["re" := Some 2%nat]} ["/bin"] None None]
          [VString "a"; VString "b"; VOK]
          [].

(** A context whose second Port entry is nil. *)
Definition gappedCtx : evalCtx :=
  mkEvalCtx None "script.elv" "put a" "top" None None (Some 0%nat).

Definition gappedState : State :=
  mkState [gappedCtx] [mkPort (Some 0%nat) None true false] [[Some 0%nat; None]]
          [] [] [] [].

(** A formatter and a [Repr] to run the samples with. *)
Definition sampleSprintf (format : string) (args : list string) : string :=
  format +:+ String.concat "," args.

Definition sampleRepr (v : Value) : string :=
  match v with
  | VString s => s
  | _ => "?"
  end.

Definition sampleRepr_error (c : ContextualError) : string :=
  ce_srcname c +:+ ": " +:+ ce_msg c.

Definition sampleHost : Host := mkHost {["PATH" := "/usr/bin:/bin"]} 4242.

Definition sampleBuiltins : list BuiltinFn := [mkBuiltinFn "put" 0; mkBuiltinFn "echo" 1].

Definition sampleTodo : list Relay.action :=
  [Relay.Send (VString "a"); Relay.WriteFile "x"; Relay.Send (VString "b")].

Definition sampleSchedule : list Relay.thread :=
  [Relay.Caller; Relay.Worker; Relay.Caller; Relay.Caller; Relay.Worker;
   Relay.Caller; Relay.Worker; Relay.Caller; Relay.Worker; Relay.Worker;
   Relay.Worker; Relay.Caller].

(** A compiler that accepts the text put and no other, and the files,
    the validity test and the parser to read sources with. *)
Definition sampleCompile (name text : string) (sc : scope) (n : unit)
  : Op * option error :=
  if decide (text = "put a") then (fun _ => ret tt, None)
  else (fun _ => ret tt, Some (otherError "compile error")).

Definition sampleReadFile (fname : string) : string * option error :=
  if decide (fname = "rc.elv") then ("put a", None)
  else if decide (fname = "bin.elv") then (String (Ascii.ascii_of_nat 255) "", None)
  else ("", Some (otherError "no such file")).

Definition sampleValid (bytes : string) : bool :=
  bool_decide (bytes ≠ String (Ascii.ascii_of_nat 255) "").

Definition sampleParse (src : string) : unit * option error := (tt, None).

Definition sampleEvalInteractive (ev : ptr) (src : string) (n : unit)
  : Exec (option error) :=
  Evaler_Eval unit sampleCompile ev "[interactive]" src n None.

Definition sampleInt (n : Z) : string := Itoa n.

(** * Properties *)

(** ** The monad *)

Lemma bind_unfold {A B} (m : Exec A) (k : A → Exec B) (h : State) :
  (m ≫= k) h = match m h with
               | (Returned a, h1) => k a h1
               | (Panicked r, h1) => (Panicked r, h1)
               end.
Proof. reflexivity. Qed.

Lemma bind_returned {A B} (m : Exec A) (k : A → Exec B) h a h1 :
  m h = (Returned a, h1) → (m ≫= k) h = k a h1.
Proof. intros E. rewrite bind_unfold, E. reflexivity. Qed.

Lemma bind_panicked {A B} (m : Exec A) (k : A → Exec B) h r h1 :
  m h = (Panicked r, h1) → (m ≫= k) h = (Panicked r, h1).
Proof. intros E. rewrite bind_unfold, E. reflexivity. Qed.

Lemma load_some {A} (store : State → list A) p x h :
  deref (store h) p = Some x → load store p h = (Returned x, h).
Proof. intros E. unfold load. rewrite E. reflexivity. Qed.

Lemma load_none {A} (store : State → list A) p h :
  deref (store h) p = None →
  load store p h = (Panicked (runtimePanic nilDereference), h).
Proof. intros E. unfold load. rewrite E. reflexivity. Qed.

Lemma len_nonneg h s : 0 ≤ len h s.
Proof. unfold len. lia. Qed.

(** ** Port access *)

Lemma port_unfold h ec c i :
  deref (hCtx h) ec = Some c →
  port ec i h = if len h (ec_ports c) <=? i then (Returned None, h)
                else index (ec_ports c) i h.
Proof.
  intros E. unfold port.
  rewrite (bind_returned _ _ _ _ _ (load_some hCtx ec c h E)).
  rewrite (bind_returned get _ h h h eq_refl).
  destruct (len h (ec_ports c) <=? i); reflexivity.
Qed.

Lemma port_beyond h ec c i :
  deref (hCtx h) ec = Some c →
  len h (ec_ports c) ≤ i → port ec i h = (Returned None, h).
Proof.
  intros E Hi. rewrite (port_unfold _ _ _ _ E).
  apply Z.leb_le in Hi. rewrite Hi. reflexivity.
Qed.

Lemma port_within h ec c i :
  deref (hCtx h) ec = Some c →
  0 ≤ i < len h (ec_ports c) →
  ∃ p, elems h (ec_ports c) !! Z.to_nat i = Some p ∧
       port ec i h = (Returned p, h).
Proof.
  intros E [H0 Hi]. rewrite (port_unfold _ _ _ _ E).
  destruct (len h (ec_ports c) <=? i) eqn:Hle; [apply Z.leb_le in Hle; lia|].
  unfold index. rewrite Hle.
  destruct (i <? 0) eqn:Hneg; [apply Z.ltb_lt in Hneg; lia|]. simpl.
  destruct (elems h (ec_ports c) !! Z.to_nat i) as [p|] eqn:Hp.
  - exists p. split; reflexivity.
  - apply lookup_ge_None in Hp. unfold len in Hi. lia.
Qed.

Lemma port_negative h ec c i :
  deref (hCtx h) ec = Some c →
  i < 0 → port ec i h = (Panicked (runtimePanic indexOutOfRange), h).
Proof.
  intros E Hi. rewrite (port_unfold _ _ _ _ E).
  pose proof (len_nonneg h (ec_ports c)).
  destruct (len h (ec_ports c) <=? i) eqn:Hle; [apply Z.leb_le in Hle; lia|].
  unfold index. apply Z.ltb_lt in Hi. rewrite Hi. reflexivity.
Qed.

(** C5, as amended: an index at or beyond the length of the Port
    sequence yields nil and no fault, and an index from 0 up to the length
    yields the entry stored at that position; the store is left as it
    was. *)
Theorem port_within_or_beyond h ec c i :
  deref (hCtx h) ec = Some c →
  (len h (ec_ports c) ≤ i → port ec i h = (Returned None, h)) ∧
  (0 ≤ i < len h (ec_ports c) →
   ∃ p, elems h (ec_ports c) !! Z.to_nat i = Some p ∧
        port ec i h = (Returned p, h)).
Proof.
  intros E. split; [apply (port_beyond _ _ _ _ E) | apply (port_within _ _ _ _ E)].
Qed.

(** C10: a negative index is never caught by the guard of [port], which
    tests the upper bound only, and faults on the access out of range;
    from 0 on, [port] returns. *)
Theorem port_negative_index_faults h ec c i :
  deref (hCtx h) ec = Some c →
  (i < 0 → port ec i h = (Panicked (runtimePanic indexOutOfRange), h)) ∧
  (0 ≤ i → ∃ p, port ec i h = (Returned p, h)).
Proof.
  intros E. split; [apply (port_negative _ _ _ _ E)|].
  intros Hi. destruct (Z_le_gt_dec (len h (ec_ports c)) i) as [Hge|Hlt].
  - exists None. apply (port_beyond _ _ _ _ E). lia.
  - destruct (port_within h ec c i E) as (p & _ & Hp); [lia|]. by exists p.
Qed.

(** ** Growing the Port sequence *)

Lemma elems_alloc h h' x s :
  hArr h' = hArr h ++ [x] →
  elems h' s = elems h s ∨
  (s = Some (length (hArr h)) ∧ elems h s = [] ∧ elems h' s = x).
Proof.
  intros Hh'. unfold elems, deref. rewrite Hh'. destruct s as [b|]; simpl; [|by left].
  destruct (decide (b < length (hArr h))%nat) as [Hlt|Hge].
  - left. by rewrite lookup_app_l.
  - destruct (decide (b = length (hArr h))) as [->|Hne].
    + right. split; [done|]. rewrite (lookup_ge_None_2 (hArr h)) by lia.
      rewrite lookup_app_r by lia. by rewrite Nat.sub_diag.
    + left. rewrite (lookup_ge_None_2 (hArr h)) by lia.
      rewrite lookup_ge_None_2; [done|]. rewrite length_app. simpl. lia.
Qed.

Lemma alter_alloc {A} (f : A → A) (l : list A) (x : A) :
  alter f (length l) (l ++ [x]) = l ++ [f x].
Proof.
  rewrite alter_app_r_alt by lia. by rewrite Nat.sub_diag.
Qed.

Lemma growPorts_enough h ec c n :
  deref (hCtx h) ec = Some c →
  n ≤ len h (ec_ports c) → growPorts ec n h = (Returned tt, h).
Proof.
  intros E Hn. unfold growPorts.
  rewrite (bind_returned _ _ _ _ _ (load_some hCtx ec c h E)).
  rewrite (bind_returned get _ h h h eq_refl).
  apply Z.leb_le in Hn. rewrite Hn. reflexivity.
Qed.

Lemma growPorts_grows h a c n :
  hCtx h !! a = Some c →
  len h (ec_ports c) < n →
  n * ptrSize ≤ maxAlloc →
  growPorts (Some a) n h = (Returned tt, grown h a c n).
Proof.
  intros E Hn Hlimit. unfold growPorts.
  rewrite (bind_returned _ _ _ _ _ (load_some hCtx (Some a) c h E)).
  rewrite (bind_returned get _ h h h eq_refl).
  destruct (n <=? len h (ec_ports c)) eqn:Hle; [apply Z.leb_le in Hle; lia|].
  pose proof (len_nonneg h (ec_ports c)) as Hlen.
  set (h1 := setArr (fun arrs => arrs ++ [replicate (Z.to_nat n) None]) h).
  assert (Hmake : make n h = (Returned (Some (length (hArr h))), h1)).
  { unfold make. destruct (n <? 0) eqn:Hneg; [apply Z.ltb_lt in Hneg; lia|].
    destruct (maxAlloc <? n * ptrSize) eqn:Hbig; [apply Z.ltb_lt in Hbig; lia|done]. }
  rewrite (bind_returned _ _ _ _ _ Hmake).
  set (c' := mkEvalCtx (ec_Evaler c) (ec_name c) (ec_text c) (ec_context c)
                       (ec_local c) (ec_up c) (Some (length (hArr h)))).
  set (h2 := setCtx (fun cs => <[a := c']> cs) h1).
  assert (Hset : setPorts (Some a) (Some (length (hArr h))) h1 = (Returned tt, h2)).
  { unfold setPorts.
    rewrite (bind_returned _ _ _ _ _ (load_some hCtx (Some a) c h1 E)). done. }
  rewrite (bind_returned _ _ _ _ _ Hset).
  rewrite bind_unfold. unfold copy. simpl. unfold ret. f_equal.
  assert (Hnew : elems h2 (Some (length (hArr h))) = replicate (Z.to_nat n) None).
  { unfold elems, deref. simpl. rewrite lookup_app_r by lia.
    by rewrite Nat.sub_diag. }
  rewrite Hnew. unfold grown, setArr. simpl. f_equal.
  rewrite alter_alloc. f_equal. f_equal.
  rewrite length_replicate.
  assert (Hold : elems h2 (ec_ports c) = elems h (ec_ports c) ∨
                 (elems h (ec_ports c) = [] ∧
                  elems h2 (ec_ports c) = replicate (Z.to_nat n) None)).
  { destruct (elems_alloc h h2 (replicate (Z.to_nat n) None) (ec_ports c) eq_refl)
      as [H1|(_ & H1 & H2)]; [left|right]; done. }
  unfold len in Hn.
  destruct Hold as [-> | [H0 ->]].
  - rewrite Nat.min_r by lia. rewrite firstn_all.
    by rewrite drop_replicate.
  - rewrite H0. rewrite length_replicate, Nat.min_id. simpl.
    rewrite take_replicate, drop_replicate, Nat.min_id, Nat.sub_diag, Nat.sub_0_r.
    simpl. by rewrite app_nil_r.
Qed.

Lemma portsOf_grown h a c n :
  hCtx h !! a = Some c →
  portsOf (grown h a c n) (Some a) =
    elems h (ec_ports c) ++ replicate (Z.to_nat n - length (elems h (ec_ports c))) None.
Proof.
  intros E. unfold portsOf, deref. simpl.
  rewrite list_lookup_insert_eq by (by eapply lookup_lt_Some).
  unfold elems, deref. simpl. rewrite lookup_app_r by lia.
  by rewrite Nat.sub_diag.
Qed.

Lemma growPorts_too_long h ec c n :
  deref (hCtx h) ec = Some c →
  len h (ec_ports c) < n →
  maxAlloc < n * ptrSize →
  growPorts ec n h = (Panicked (runtimePanic lenOutOfRange), h).
Proof.
  intros E Hn Hbig. unfold growPorts.
  rewrite (bind_returned _ _ _ _ _ (load_some hCtx ec c h E)).
  rewrite (bind_returned get _ h h h eq_refl).
  destruct (n <=? len h (ec_ports c)) eqn:Hle; [apply Z.leb_le in Hle; lia|].
  assert (Hmake : make n h = (Panicked (runtimePanic lenOutOfRange), h)).
  { unfold make. apply Z.ltb_lt in Hbig. rewrite Hbig. by rewrite orb_true_r. }
  by rewrite (bind_panicked _ _ _ _ _ Hmake).
Qed.

(** What one call of [growPorts] does, for a length that [make] accepts. *)
Lemma growPorts_spec h ec c n :
  deref (hCtx h) ec = Some c →
  n * ptrSize ≤ maxAlloc →
  ∃ h', growPorts ec n h = (Returned tt, h') ∧
        hPort h' = hPort h ∧
        is_Some (deref (hCtx h') ec) ∧
        (n ≤ len h (ec_ports c) → h' = h) ∧
        portsOf h' ec =
          portsOf h ec ++ replicate (Z.to_nat n - length (portsOf h ec)) None.
Proof.
  intros E Hlimit. assert (Hp : portsOf h ec = elems h (ec_ports c)).
  { unfold portsOf. by rewrite E. }
  destruct (Z_le_gt_dec n (len h (ec_ports c))) as [Hle|Hgt].
  - exists h. split; [by apply (growPorts_enough _ _ _ _ E)|].
    split; [done|]. split; [by rewrite E|]. split; [done|].
    rewrite Hp. unfold len in Hle.
    replace (Z.to_nat n - length (elems h (ec_ports c)))%nat with 0%nat by lia.
    simpl. by rewrite app_nil_r.
  - destruct ec as [a|]; [|done]. simpl in E.
    exists (grown h a c n). split; [apply (growPorts_grows _ _ _ _ E); [lia|done]|].
    split; [done|]. split.
    { unfold deref. simpl. rewrite list_lookup_insert_eq; [done|].
      by eapply lookup_lt_Some. }
    split; [lia|]. rewrite Hp. by apply portsOf_grown.
Qed.

Lemma len_portsOf h ec c :
  deref (hCtx h) ec = Some c → len h (ec_ports c) = Z.of_nat (length (portsOf h ec)).
Proof. intros E. unfold portsOf. by rewrite E. Qed.

(** C6, as amended: for every [n] whose memory [make] accepts,
    [growPorts] returns; it changes nothing when the sequence has [n]
    entries or more, and otherwise extends it to [n] entries with nils
    behind the entries it had, which stay the same pointers to the same
    untouched Ports.  A second call with the same [n] changes nothing,
    and a further call with any such [m], smaller or greater, never
    shortens the sequence and keeps every entry there was. *)
Theorem growPorts_idempotent_monotone h ec c n :
  deref (hCtx h) ec = Some c →
  n * ptrSize ≤ maxAlloc →
  ∃ h', growPorts ec n h = (Returned tt, h') ∧
        (n ≤ len h (ec_ports c) → h' = h) ∧
        (len h (ec_ports c) < n → length (portsOf h' ec) = Z.to_nat n) ∧
        portsOf h' ec =
          portsOf h ec ++ replicate (Z.to_nat n - length (portsOf h ec)) None ∧
        hPort h' = hPort h ∧
        growPorts ec n h' = (Returned tt, h') ∧
        ∀ m, m * ptrSize ≤ maxAlloc →
             ∃ h'', growPorts ec m h' = (Returned tt, h'') ∧
                    (length (portsOf h ec) ≤ length (portsOf h' ec))%nat ∧
                    (length (portsOf h' ec) ≤ length (portsOf h'' ec))%nat ∧
                    (∀ i p, portsOf h ec !! i = Some p →
                            portsOf h'' ec !! i = Some p) ∧
                    hPort h'' = hPort h.
Proof.
  intros E Hlimit.
  destruct (growPorts_spec h ec c n E Hlimit)
    as (h' & Hrun & Hport & [c' E'] & Hsame & Hseq).
  exists h'. split; [done|]. split; [done|].
  pose proof (len_portsOf h ec c E) as Hlen.
  split.
  { intros Hn. rewrite Hseq, length_app, length_replicate. lia. }
  split; [done|]. split; [done|]. split.
  - destruct (growPorts_spec h' ec c' n E' Hlimit) as (h2 & Hrun2 & _ & _ & Hsame2 & _).
    rewrite Hrun2. f_equal. apply Hsame2.
    rewrite (len_portsOf h' ec c' E'), Hseq, length_app, length_replicate. lia.
  - intros m Hm.
    destruct (growPorts_spec h' ec c' m E' Hm) as (h2 & Hrun2 & Hport2 & _ & _ & Hseq2).
    exists h2. split; [done|].
    split; [rewrite Hseq, length_app; lia|].
    split; [rewrite Hseq2, length_app; lia|].
    split; [|congruence].
    intros i p Hi. rewrite Hseq2, Hseq.
    apply lookup_app_l_Some, lookup_app_l_Some, Hi.
Qed.

(** ** Forking *)

Lemma insert_alter_same {A} (f : A → A) (l : list A) (i : nat) (x : A) :
  <[i := x]> (alter f i l) = <[i := x]> l.
Proof.
  rewrite !list_insert_alter, list_alter_alter_eq. by apply list_alter_ext.
Qed.

Lemma deref_alloc {A} (store : list A) (extra : list A) p x :
  deref store p = Some x → deref (store ++ extra) p = Some x.
Proof.
  unfold deref. destruct p as [a|]; simpl; [|done]. apply lookup_app_l_Some.
Qed.

(** The loop of [fork] over entries that are all present: the copies are
    appended to the Ports, and the slots of the new array, from
    [length done] on, point to them. *)
Lemma forkPorts_ok ps : ∀ h arr done tail qs,
  hArr h !! arr = Some (done ++ replicate (length ps) None ++ tail) →
  Forall2 (fun p q => deref (hPort h) p = Some q) ps qs →
  forkPorts (Some arr) (Z.of_nat (length done)) ps h =
    (Returned tt,
     mkState (hCtx h) (hPort h ++ (forked <$> qs))
             (<[arr := done ++ (Some <$> seq (length (hPort h)) (length ps)) ++ tail]>
                (hArr h))
             (hNs h) (hEvaler h) (hBox h) (recovered h)).
Proof.
  induction ps as [|p rest IH]; intros h arr done tail qs Harr Hqs.
  - apply Forall2_nil_inv_l in Hqs as ->. simpl. unfold ret. f_equal.
    destruct h as [cs po ar nss evs bx rc]. simpl in *. f_equal.
    + by rewrite app_nil_r.
    + symmetry. by apply list_insert_id.
  - apply Forall2_cons_inv_l in Hqs as (q & qs' & Hq & Hrest & ->).
    cbn [forkPorts].
    rewrite (bind_returned _ _ _ _ _ (load_some hPort p q h Hq)).
    set (np := Some (length (hPort h))).
    set (h1 := setPort (fun s => s ++ [forked q]) h).
    rewrite (bind_returned (newPort _) _ h np h1 eq_refl).
    set (h2 := setArr (alter (fun l => <[length done := np]> l) arr) h1).
    assert (Hassign : assign (Some arr) (Z.of_nat (length done)) np h1
                      = (Returned tt, h2)).
    { unfold assign, len, elems, deref, h1. simpl. rewrite Harr. simpl.
      destruct (Z.of_nat (length done) <? 0) eqn:Hneg;
        [apply Z.ltb_lt in Hneg; lia|].
      rewrite length_app. simpl.
      destruct (_ <=? _) eqn:Hle; [apply Z.leb_le in Hle; lia|].
      simpl. unfold h2. by rewrite Nat2Z.id. }
    rewrite (bind_returned _ _ _ _ _ Hassign).
    replace (Z.of_nat (length done) + 1) with (Z.of_nat (length (done ++ [np])))
      by (rewrite length_app; simpl; lia).
    rewrite (IH h2 arr (done ++ [np]) tail qs').
    + f_equal. simpl. f_equal.
      * by rewrite <- app_assoc.
      * rewrite insert_alter_same. f_equal. rewrite length_app. simpl.
        rewrite <- app_assoc. simpl. by rewrite Nat.add_1_r.
    + simpl. rewrite list_lookup_alter_eq, Harr. simpl. f_equal.
      rewrite insert_app_r_alt by lia. rewrite Nat.sub_diag. simpl.
      by rewrite <- app_assoc.
    + simpl. eapply Forall2_impl; [exact Hrest|].
      intros p' q' Hp'. by apply deref_alloc.
Qed.

Lemma fork_ok h ec c newContext qs :
  deref (hCtx h) ec = Some c →
  Forall2 (fun p q => deref (hPort h) p = Some q) (elems h (ec_ports c)) qs →
  fork ec newContext h =
    (Returned (Some (length (hCtx h))), forkedState h c newContext qs).
Proof.
  intros E Hqs. unfold fork.
  rewrite (bind_returned _ _ _ _ _ (load_some hCtx ec c h E)).
  rewrite (bind_returned get _ h h h eq_refl).
  set (ps := elems h (ec_ports c)) in *.
  set (h1 := setArr (fun arrs => arrs ++ [replicate (length ps) None]) h).
  assert (Hmake : makeLen h (ec_ports c) h = (Returned (Some (length (hArr h))), h1)).
  { reflexivity. }
  rewrite (bind_returned _ _ _ _ _ Hmake).
  pose proof (forkPorts_ok ps h1 (length (hArr h)) [] [] qs) as Hloop.
  simpl in Hloop. change (Z.of_nat 0) with 0 in Hloop.
  rewrite bind_unfold, Hloop.
  - unfold newCtx, forkedState. simpl. f_equal. unfold setCtx. simpl. f_equal.
    rewrite app_nil_r.
    rewrite <- (Nat.add_0_r (length (hArr h))) at 1.
    rewrite insert_app_r. simpl. by rewrite (Forall2_length _ _ _ Hqs).
  - rewrite lookup_app_r by lia. rewrite Nat.sub_diag. simpl. by rewrite app_nil_r.
  - done.
Qed.

Lemma forkPorts_app ps1 ps2 : ∀ newPorts i h,
  forkPorts newPorts i (ps1 ++ ps2) h =
  (forkPorts newPorts i ps1 ≫= fun _ => forkPorts newPorts (i + Z.of_nat (length ps1)) ps2) h.
Proof.
  induction ps1 as [|p ps1 IH]; intros newPorts i h.
  - simpl. by rewrite Z.add_0_r.
  - cbn [forkPorts app]. rewrite !bind_unfold.
    destruct (load hPort p h) as [[q|r] h1]; [|done].
    rewrite !bind_unfold. destruct (newPort _ h1) as [[np|r] h2]; [|done].
    rewrite !bind_unfold. destruct (assign _ _ _ h2) as [[[]|r] h3]; [|done].
    rewrite IH, bind_unfold. simpl length.
    by replace (i + 1 + Z.of_nat (length ps1)) with (i + Z.of_nat (S (length ps1))) by lia.
Qed.

Lemma present_split h (ps : list ptr) :
  Forall (fun p => p = None ∨ present h p) ps →
  None ∈ ps →
  ∃ good rest, ps = good ++ None :: rest ∧ Forall (present h) good.
Proof.
  induction 1 as [|p ps Hp _ IH]; intros Hin.
  - by apply elem_of_nil in Hin.
  - destruct Hp as [->|Hp].
    + exists [], ps. split; [done|constructor].
    + apply elem_of_cons in Hin as [<-|Hin].
      * destruct Hp as [? Hp]. by cbv in Hp.
      * destruct (IH Hin) as (good & rest & -> & Hgood).
        exists (p :: good), rest. split; [done|]. by constructor.
Qed.

Lemma present_Forall2 h (ps : list ptr) :
  Forall (present h) ps →
  ∃ qs, Forall2 (fun p q => deref (hPort h) p = Some q) ps qs.
Proof.
  induction 1 as [|p ps [q Hq] _ [qs IH]].
  - by exists [].
  - exists (q :: qs). by constructor.
Qed.

(** [fork] on a parent whose sequence has a nil entry behind entries that
    are present: the loop copies those and faults on the nil one. *)
Lemma fork_nil_entry h ec c newContext good rest :
  deref (hCtx h) ec = Some c →
  elems h (ec_ports c) = good ++ None :: rest →
  Forall (present h) good →
  ∃ h', fork ec newContext h = (Panicked (runtimePanic nilDereference), h').
Proof.
  intros E Hps Hgood. destruct (present_Forall2 h good Hgood) as [qs Hqs].
  unfold fork.
  rewrite (bind_returned _ _ _ _ _ (load_some hCtx ec c h E)).
  rewrite (bind_returned get _ h h h eq_refl).
  set (n := length (good ++ None :: rest)).
  set (h1 := setArr (fun arrs => arrs ++ [replicate n None]) h).
  assert (Hmake : makeLen h (ec_ports c) h = (Returned (Some (length (hArr h))), h1)).
  { unfold makeLen. by rewrite Hps. }
  rewrite (bind_returned _ _ _ _ _ Hmake). rewrite Hps.
  rewrite bind_unfold, forkPorts_app, bind_unfold.
  pose proof (forkPorts_ok good h1 (length (hArr h)) [] (replicate (S (length rest)) None) qs)
    as Hloop.
  simpl in Hloop. change (Z.of_nat 0) with 0 in Hloop. rewrite Hloop.
  - cbn [forkPorts]. rewrite bind_unfold. unfold load at 1. simpl. eauto.
  - rewrite lookup_app_r by lia. rewrite Nat.sub_diag. simpl. f_equal.
    unfold n. rewrite length_app. simpl.
    by rewrite replicate_add.
  - done.
Qed.

Lemma fork_absent h ec c newContext :
  deref (hCtx h) ec = Some c →
  Forall (fun p => p = None ∨ present h p) (elems h (ec_ports c)) →
  None ∈ elems h (ec_ports c) →
  ∃ h', fork ec newContext h = (Panicked (runtimePanic nilDereference), h').
Proof.
  intros E Hwf Hnil.
  destruct (present_split h _ Hwf Hnil) as (good & rest & Hps & Hgood).
  by eapply fork_nil_entry.
Qed.

Lemma fork_present h ec c newContext :
  deref (hCtx h) ec = Some c →
  Forall (present h) (elems h (ec_ports c)) →
  ∃ qs, Forall2 (fun p q => deref (hPort h) p = Some q) (elems h (ec_ports c)) qs ∧
        fork ec newContext h =
          (Returned (Some (length (hCtx h))), forkedState h c newContext qs).
Proof.
  intros E Hall. destruct (present_Forall2 h _ Hall) as [qs Hqs].
  exists qs. split; [done|]. by apply fork_ok.
Qed.

(** C2, as amended: for a context whose Port entries are all present,
    [fork] returns a new context with the given label and with the Evaler,
    the name, the text and both namespace references of the parent; its
    Port sequence is a new array of the same length whose entries are new
    Ports with the file and the channel of the parent's entry at the same
    position and both close flags false.  The parent, its sequence and its
    Ports are as before. *)
Theorem fork_shares_and_copies h ec c newContext :
  deref (hCtx h) ec = Some c →
  Forall (present h) (elems h (ec_ports c)) →
  ∃ child c' h',
    fork ec newContext h = (Returned child, h') ∧
    deref (hCtx h) child = None ∧
    deref (hCtx h') child = Some c' ∧
    ec_Evaler c' = ec_Evaler c ∧ ec_name c' = ec_name c ∧
    ec_text c' = ec_text c ∧ ec_local c' = ec_local c ∧ ec_up c' = ec_up c ∧
    ec_context c' = newContext ∧
    deref (hArr h) (ec_ports c') = None ∧
    is_Some (deref (hArr h') (ec_ports c')) ∧
    length (elems h' (ec_ports c')) = length (elems h (ec_ports c)) ∧
    (∀ i p q, elems h (ec_ports c) !! i = Some p → deref (hPort h) p = Some q →
       ∃ p', elems h' (ec_ports c') !! i = Some p' ∧
             deref (hPort h) p' = None ∧
             deref (hPort h') p' = Some (mkPort (File q) (Chan q) false false)) ∧
    deref (hCtx h') ec = Some c ∧
    elems h' (ec_ports c) = elems h (ec_ports c) ∧
    (∀ p q, deref (hPort h) p = Some q → deref (hPort h') p = Some q) ∧
    hNs h' = hNs h ∧ hEvaler h' = hEvaler h.
Proof.
  intros E Hall.
  destruct (fork_present h ec c newContext E Hall) as (qs & Hqs & Hrun).
  pose proof (Forall2_length _ _ _ Hqs) as Hlen.
  set (c' := mkEvalCtx (ec_Evaler c) (ec_name c) (ec_text c) newContext
                       (ec_local c) (ec_up c) (Some (length (hArr h)))).
  assert (Hnew : elems (forkedState h c newContext qs) (ec_ports c')
                 = Some <$> seq (length (hPort h)) (length qs)).
  { unfold elems, deref. simpl. rewrite lookup_app_r by lia.
    by rewrite Nat.sub_diag. }
  exists (Some (length (hCtx h))), c', (forkedState h c newContext qs).
  split; [done|]. split.
  { unfold deref. simpl. by apply lookup_ge_None_2. }
  split.
  { unfold deref. simpl. rewrite lookup_app_r by lia. by rewrite Nat.sub_diag. }
  do 6 (split; [done|]). split.
  { unfold deref. simpl. by apply lookup_ge_None_2. }
  split.
  { unfold deref. simpl. rewrite lookup_app_r by lia. rewrite Nat.sub_diag. by eexists. }
  split.
  { rewrite Hnew, length_fmap, length_seq. done. }
  split.
  { intros i p q Hi Hq.
    destruct (Forall2_lookup_l _ _ _ _ _ Hqs Hi) as (q' & Hq' & Hpq).
    assert (q' = q) as -> by congruence.
    exists (Some (length (hPort h) + i)%nat). split; [|split].
    - rewrite Hnew, list_lookup_fmap, lookup_seq_lt; [done|].
      by eapply lookup_lt_Some.
    - unfold deref. simpl. apply lookup_ge_None_2. lia.
    - unfold deref. simpl. rewrite lookup_app_r by lia.
      replace (length (hPort h) + i - length (hPort h))%nat with i by lia.
      by rewrite list_lookup_fmap, Hq'. }
  split.
  { by apply deref_alloc. }
  split.
  { destruct (elems_alloc h (forkedState h c newContext qs) _ (ec_ports c) eq_refl)
      as [H1|(_ & H1 & H2)]; [done|].
    rewrite H2, H1. rewrite H1 in Hlen. simpl in Hlen. by rewrite <- Hlen. }
  split; [|done].
  intros p q Hq. by apply deref_alloc.
Qed.

(** C9: on a context whose Port sequence has a nil entry, [fork] reads
    the file of that entry through the nil pointer and faults, where it
    could have left the entry nil in the child; so it does right after
    [growPorts] has extended the sequence, to a length that [make]
    accepts.  With every entry present it returns. *)
Theorem fork_faults_on_absent_entry h ec c newContext :
  deref (hCtx h) ec = Some c →
  Forall (fun p => p = None ∨ present h p) (elems h (ec_ports c)) →
  (None ∈ elems h (ec_ports c) →
   ∃ h', fork ec newContext h = (Panicked (runtimePanic nilDereference), h')) ∧
  (None ∉ elems h (ec_ports c) →
   ∃ child h', fork ec newContext h = (Returned child, h')) ∧
  (∀ n, len h (ec_ports c) < n → n * ptrSize ≤ maxAlloc →
   ∃ h', (growPorts ec n ≫= fun _ => fork ec newContext) h
         = (Panicked (runtimePanic nilDereference), h')).
Proof.
  intros E Hwf. split; [|split].
  - by apply fork_absent.
  - intros Hnone.
    assert (Hall : Forall (present h) (elems h (ec_ports c))).
    { apply Forall_forall. intros p Hp.
      destruct (proj1 (Forall_forall _ _) Hwf p Hp) as [->|]; done. }
    destruct (fork_present h ec c newContext E Hall) as (qs & _ & Hrun). eauto.
  - intros n Hn Hlimit. destruct ec as [a|]; [|done]. simpl in E.
    rewrite (bind_returned _ _ _ _ _ (growPorts_grows h a c n E Hn Hlimit)).
    pose proof (portsOf_grown h a c n E) as Hports.
    assert (E' : is_Some (deref (hCtx (grown h a c n)) (Some a))).
    { unfold deref. simpl. rewrite list_lookup_insert_eq; [done|].
      by eapply lookup_lt_Some. }
    destruct E' as [c' E'].
    assert (Hc' : elems (grown h a c n) (ec_ports c') = portsOf (grown h a c n) (Some a)).
    { unfold portsOf. by rewrite E'. }
    apply (fork_absent _ _ c' _ E').
    + rewrite Hc', Hports. apply Forall_app. split; [done|].
      apply Forall_replicate. by left.
    + rewrite Hc', Hports. apply elem_of_app. right.
      unfold len in Hn.
      destruct (Z.to_nat n - length (elems h (ec_ports c)))%nat eqn:Hk; [lia|].
      simpl. apply elem_of_cons. by left.
Qed.

(** ** Protected evaluation *)

Lemma PEval_returned ec (op : Op) h h1 :
  op ec h = (Returned tt, h1) → PEval ec op h = (Returned None, h1).
Proof. intros E. unfold PEval. rewrite E. reflexivity. Qed.

Lemma PEval_exception ec (op : Op) h e h1 :
  op ec h = (Panicked (exception e), h1) →
  PEval ec op h = (Returned (Some e), setRecovered (fun l => l ++ [exception e]) h1).
Proof. intros E. unfold PEval. rewrite E. reflexivity. Qed.

Lemma last_cons_default {A} (x y : A) (l : list A) :
  default x (last (y :: l)) = default y (last l).
Proof. destruct l as [|z l]; [done|]. rewrite last_cons_cons. by destruct (last (z :: l)) eqn:E; [|by apply last_None in E]. Qed.

Lemma forkedState_child_present h c newContext qs :
  Forall (present (forkedState h c newContext qs))
         (elems (forkedState h c newContext qs) (Some (length (hArr h)))).
Proof.
  unfold elems, deref. simpl. rewrite lookup_app_r by lia. rewrite Nat.sub_diag. simpl.
  apply Forall_forall. intros p Hp.
  apply list_elem_of_fmap in Hp as (a & -> & Ha). apply elem_of_seq in Ha.
  unfold present, deref. simpl. apply lookup_lt_is_Some.
  rewrite length_app, length_fmap. lia.
Qed.

Section Protected.

Variable fmtArg : Type.
Variable Sprintf : string → list fmtArg → string.

Lemma errorf_raises h ec c p format args :
  deref (hCtx h) ec = Some c →
  errorf fmtArg Sprintf ec p format args h =
    (Panicked (exception (raised fmtArg Sprintf (ec_name c) (ec_context c) (ec_text c) p format args)), h).
Proof.
  intros E. unfold errorf.
  by rewrite (bind_returned _ _ _ _ _ (load_some hCtx ec c h E)).
Qed.

(** A signal of [errorf] below any number of forks unwinds through all
    of them; no frame on the way recovers. *)
Lemma inForks_errorf_unwinds labels p format args : ∀ h ec c,
  deref (hCtx h) ec = Some c →
  Forall (present h) (elems h (ec_ports c)) →
  ∃ h1,
    inForks labels (fun e => errorf fmtArg Sprintf e p format args) ec h =
      (Panicked (exception (raised fmtArg Sprintf (ec_name c) (default (ec_context c) (last labels))
                                   (ec_text c) p format args)), h1) ∧
    recovered h1 = recovered h.
Proof.
  induction labels as [|l rest IH]; intros h ec c E Hall.
  - exists h. split; [|done]. simpl. by apply errorf_raises.
  - destruct (fork_present h ec c l E Hall) as (qs & _ & Hrun).
    cbn [inForks]. rewrite (bind_returned _ _ _ _ _ Hrun).
    set (c' := mkEvalCtx (ec_Evaler c) (ec_name c) (ec_text c) l
                         (ec_local c) (ec_up c) (Some (length (hArr h)))).
    destruct (IH (forkedState h c l qs) (Some (length (hCtx h))) c') as (h1 & Hbody & Hrec).
    + unfold deref. simpl. rewrite lookup_app_r by lia. by rewrite Nat.sub_diag.
    + apply forkedState_child_present.
    + exists h1. split; [|done]. rewrite Hbody. by rewrite last_cons_default.
Qed.

(** C1: [PEval] is where the unwinding stops.  When the operation
    returns, [PEval] returns nil.  When the operation ends in the signal
    of a [throw], [PEval] returns the error of the signal and logs that
    one recovery.  A signal that [errorf] raises below any number of
    forked contexts reaches [PEval] with no recovery on the way, and
    [PEval] returns the error with the name of the program, the label of
    the raising context, the source text, the position and the formatted
    message. *)
Theorem PEval_single_recovery_boundary (ec : ptr) (op : Op) (h : State) :
  (∀ h1, op ec h = (Returned tt, h1) → PEval ec op h = (Returned None, h1)) ∧
  (∀ e h1, op ec h = (Panicked (exception e), h1) →
     PEval ec op h =
       (Returned (Some e), setRecovered (fun l => l ++ [exception e]) h1)) ∧
  (∀ c labels p format args,
     deref (hCtx h) ec = Some c →
     Forall (present h) (elems h (ec_ports c)) →
     let err := raised fmtArg Sprintf (ec_name c) (default (ec_context c) (last labels))
                       (ec_text c) p format args in
     ∃ h', PEval ec (inForks labels (fun e => errorf fmtArg Sprintf e p format args)) h
             = (Returned (Some err), h') ∧
           recovered h' = recovered h ++ [exception err]).
Proof.
  split; [|split].
  - intros h1. apply PEval_returned.
  - intros e h1. apply PEval_exception.
  - intros c labels p format args E Hall err.
    destruct (inForks_errorf_unwinds labels p format args h ec c E Hall)
      as (h1 & Hrun & Hrec).
    exists (setRecovered (fun l => l ++ [exception err]) h1). split.
    + by apply PEval_exception.
    + simpl. by rewrite Hrec.
Qed.

End Protected.

(** ** Variable resolution *)

Lemma ResolveVar_unfold h ec c e ns name :
  ns ≠ "env" →
  deref (hCtx h) ec = Some c →
  deref (hEvaler h) (ec_Evaler c) = Some e →
  ResolveVar ec ns name h =
    (Returned
       match ev_mod e !! ns with
       | Some m => nsAt h m !! name
       | None =>
           let fromUp := if bool_decide (ns = "") || bool_decide (ns = "up")
                         then nsAt h (ec_up c) !! name else None in
           if bool_decide (ns = "") || bool_decide (ns = "local")
           then match nsAt h (ec_local c) !! name with
                | Some v => Some v
                | None => fromUp
                end
           else fromUp
       end, h).
Proof.
  intros Hns E Ee. unfold ResolveVar. destruct (decide (ns = "env")); [done|].
  rewrite (bind_returned _ _ _ _ _ (load_some hCtx ec c h E)).
  rewrite (bind_returned _ _ _ _ _ (load_some hEvaler _ e h Ee)).
  rewrite (bind_returned get _ h h h eq_refl).
  destruct (ev_mod e !! ns); [done|]. simpl.
  destruct (bool_decide (ns = "") || bool_decide (ns = "local")); [|done].
  by destruct (nsAt h (ec_local c) !! name).
Qed.

(** C3: the qualifier [env] always resolves, to the variable backed by
    the environment, whatever the context and the store.  Any other
    qualifier that names a registered module resolves in the namespace of
    that module alone.  Otherwise the empty qualifier resolves in the
    local namespace and, when the name is not there, in the up namespace;
    [local] resolves in the local namespace alone, [up] in the up
    namespace alone, and every other qualifier resolves to nil. *)
Theorem ResolveVar_precedence h ec ns name :
  (ns = "env" → ResolveVar ec ns name h = (Returned (Some (envVariable name)), h)) ∧
  (∀ c e, ns ≠ "env" →
     deref (hCtx h) ec = Some c →
     deref (hEvaler h) (ec_Evaler c) = Some e →
     (∀ m, ev_mod e !! ns = Some m →
        ResolveVar ec ns name h = (Returned (nsAt h m !! name), h)) ∧
     (ev_mod e !! ns = None →
        (ns = "" →
           ResolveVar ec ns name h =
             (Returned match nsAt h (ec_local c) !! name with
                       | Some v => Some v
                       | None => nsAt h (ec_up c) !! name
                       end, h)) ∧
        (ns = "local" →
           ResolveVar ec ns name h = (Returned (nsAt h (ec_local c) !! name), h)) ∧
        (ns = "up" →
           ResolveVar ec ns name h = (Returned (nsAt h (ec_up c) !! name), h)) ∧
        (ns ≠ "" → ns ≠ "local" → ns ≠ "up" →
           ResolveVar ec ns name h = (Returned None, h)))).
Proof.
  split.
  - intros ->. reflexivity.
  - intros c e Hns E Ee. rewrite (ResolveVar_unfold h ec c e ns name Hns E Ee).
    split; [by intros m ->|].
    intros ->. repeat split.
    + by intros ->.
    + intros ->. simpl. by destruct (nsAt h (ec_local c) !! name).
    + by intros ->.
    + intros H1 H2 H3. by rewrite !bool_decide_eq_false_2.
Qed.

(** ** Error presentation *)

Lemma append_cons (x : ascii) (a b : string) :
  String x a +:+ b = String x (a +:+ b).
Proof. reflexivity. Qed.

Lemma append_assoc (a b c : string) : (a +:+ b) +:+ c = a +:+ (b +:+ c).
Proof. induction a as [|x a IH]; [done|]. by rewrite !append_cons, IH. Qed.

Lemma append_nil_r (a : string) : a +:+ "" = a.
Proof. induction a as [|x a IH]; [done|]. by rewrite append_cons, IH. Qed.

(** Induction on an error through the parts of an aggregate. *)
Lemma error_parts_ind (P : error → Prop) :
  (∀ es, Forall (fun c => ∀ e, inner c = Some e → P e) es → P (multiError es)) →
  (∀ msg, P (flow msg)) →
  (∀ c, P (contextualError c)) →
  (∀ msg, P (otherError msg)) →
  ∀ e, P e.
Proof.
  intros Hmulti Hflow Hctx Hother. fix IH 1.
  intros [es|msg|c|msg]; [|apply Hflow|apply Hctx|apply Hother].
  apply Hmulti. revert es. fix IHes 1. intros [|[[e|]] es].
  - constructor.
  - constructor; [|apply IHes]. intros e' [= <-]. apply IH.
  - constructor; [|apply IHes]. intros e' [=].
Qed.

Lemma concat_delimited (x : string) (parts : list string) :
  String.concat " | " (x :: parts) = x +:+ delimited parts.
Proof.
  revert x. induction parts as [|y parts IH]; intros x.
  - simpl. by rewrite append_nil_r.
  - change (String.concat " | " (x :: y :: parts))
      with (x +:+ " | " +:+ String.concat " | " (y :: parts)).
    by rewrite IH.
Qed.

Section Presentation.

Variable ContextualError_Error : ContextualError → string.

Local Abbreviation pp := (PprintError_error ContextualError_Error).
Local Abbreviation part := (renderPart ContextualError_Error).

Lemma rangeErrors_later es : ∀ i out,
  0 < i →
  Forall (fun c => ∀ e, inner c = Some e → ∀ o, pp e o = o +:+ render_error ContextualError_Error e) es →
  rangeErrors pp i es out = out +:+ delimited (map part es).
Proof.
  induction es as [|c es IH]; intros i out Hi Hes.
  - simpl. by rewrite append_nil_r.
  - apply Forall_cons in Hes as [Hc Hes]. cbn [rangeErrors].
    destruct (0 <? i) eqn:Hpos; [|apply Z.ltb_ge in Hpos; lia].
    rewrite IH by (done || lia). cbn [map delimited foldr]. unfold Print.
    destruct c as [[e|]].
    + rewrite (Hc e eq_refl). by rewrite !append_assoc.
    + by rewrite !append_assoc.
Qed.

Lemma rangeErrors_first es out :
  Forall (fun c => ∀ e, inner c = Some e → ∀ o, pp e o = o +:+ render_error ContextualError_Error e) es →
  rangeErrors pp 0 es out = out +:+ String.concat " | " (map part es).
Proof.
  destruct es as [|c es]; intros Hes.
  - simpl. by rewrite append_nil_r.
  - apply Forall_cons in Hes as [Hc Hes]. cbn [rangeErrors map].
    rewrite concat_delimited. change (0 <? 0) with false. cbv iota.
    change (0 + 1) with 1. rewrite rangeErrors_later by (done || lia).
    unfold Print. destruct c as [[e|]].
    + rewrite (Hc e eq_refl). by rewrite !append_assoc.
    + by rewrite !append_assoc.
Qed.

Lemma render_multiError es :
  render_error ContextualError_Error (multiError es)
  = "(" +:+ String.concat " | " (map part es) +:+ ")".
Proof.
  cbn [render_error]. do 3 f_equal.
  induction es as [|[[e|]] es IH]; cbn [map]; by rewrite ?IH.
Qed.

Lemma PprintError_error_renders e : ∀ out,
  pp e out = out +:+ render_error ContextualError_Error e.
Proof.
  induction e as [es IH|msg|c|msg] using error_parts_ind; intros out;
    try reflexivity.
  unfold pp. cbn [PprintError_error]. fold pp.
  rewrite (rangeErrors_first es _ IH), render_multiError. unfold Print.
  by rewrite !append_assoc.
Qed.

(** C8: what [PprintError] adds to the standard output is the
    rendering of the error by kind, and the error is only read: nil as
    the green ok marker, an aggregate as its parts in order between
    parentheses with the delimiter between them (two parts [a] and [b]
    as [(render a | render b)]), a flow signal in yellow and any other
    error in bold red, which no flow signal rendering equals. *)
Theorem PprintError_renders_by_kind :
  (∀ e out, PprintError ContextualError_Error e out
            = out +:+ render ContextualError_Error e) ∧
  render ContextualError_Error None = ESC +:+ "[32mok" +:+ ESC +:+ "[m" ∧
  (∀ es, render ContextualError_Error (Some (multiError es))
         = "(" +:+ String.concat " | " (map part es) +:+ ")") ∧
  (∀ a b, render ContextualError_Error (Some (multiError [mkError a; mkError b]))
          = "(" +:+ render ContextualError_Error a +:+ " | "
                +:+ render ContextualError_Error b +:+ ")") ∧
  (∀ msg, render ContextualError_Error (Some (flow msg))
          = ESC +:+ "[33m" +:+ msg +:+ ESC +:+ "[m") ∧
  (∀ msg, render ContextualError_Error (Some (otherError msg))
          = ESC +:+ "[31;1m" +:+ msg +:+ ESC +:+ "[m") ∧
  (∀ c, render ContextualError_Error (Some (contextualError c))
        = ESC +:+ "[31;1m" +:+ ContextualError_Error c +:+ ESC +:+ "[m") ∧
  (∀ msg e, (∀ m, e ≠ Some (flow m)) →
            render ContextualError_Error (Some (flow msg))
            ≠ render ContextualError_Error e).
Proof.
  split.
  { intros [e|] out; [apply PprintError_error_renders|reflexivity]. }
  split; [reflexivity|]. split.
  { intros es. apply render_multiError. }
  split.
  { intros a b. cbn [render]. rewrite render_multiError.
    cbn [map String.concat]. by rewrite !append_assoc. }
  split; [reflexivity|]. split; [reflexivity|]. split; [reflexivity|].
  intros msg [[es|m|c|m]|] Hflow; cbn; try discriminate.
  by destruct (Hflow m).
Qed.

End Presentation.

(** ** Construction of the Evaler *)

Lemma bindBuiltins_spec fns : ∀ h a g,
  hNs h !! a = Some g →
  bindBuiltins (Some a) fns h =
    (Returned tt,
     mkState (hCtx h) (hPort h) (hArr h)
             (<[a := bindAll (length (hBox h)) fns g]> (hNs h))
             (hEvaler h) (hBox h ++ (VBuiltinFn <$> fns)) (recovered h)).
Proof.
  induction fns as [|b rest IH]; intros h a g Hg.
  - simpl. unfold ret. f_equal. destruct h; simpl in *. f_equal.
    + symmetry. by apply list_insert_id.
    + by rewrite app_nil_r.
  - cbn [bindBuiltins].
    rewrite (bind_returned (newPtrVariable _) _ h (ptrVariable (length (hBox h)))
               (setBox (fun s => s ++ [VBuiltinFn b]) h) eq_refl).
    rewrite bind_unfold. cbn [mapassign].
    rewrite (IH _ a (<[fnKey b := ptrVariable (length (hBox h))]> g)).
    + f_equal. simpl. f_equal.
      * rewrite insert_alter_same. f_equal. rewrite length_app. simpl.
        by rewrite Nat.add_1_r.
      * by rewrite <- app_assoc.
    + simpl. by rewrite list_lookup_alter_eq, Hg.
Qed.

Lemma bindAll_lookup_other fns : ∀ base g k,
  (∀ b, b ∈ fns → fnKey b ≠ k) → bindAll base fns g !! k = g !! k.
Proof.
  induction fns as [|b rest IH]; intros base g k Hk; [done|].
  cbn [bindAll]. rewrite IH.
  - apply lookup_insert_ne, Hk, elem_of_cons. by left.
  - intros b' Hb'. apply Hk, elem_of_cons. by right.
Qed.

Lemma bindAll_dom fns : ∀ base g,
  dom (bindAll base fns g) = dom g ∪ list_to_set (fnKey <$> fns).
Proof.
  induction fns as [|b rest IH]; intros base g.
  - simpl. set_solver.
  - cbn [bindAll]. rewrite IH, dom_insert_L. simpl. set_solver.
Qed.

Lemma bindAll_lookup_fn fns : ∀ base g b,
  b ∈ fns →
  ∃ i b', fns !! i = Some b' ∧ Name b' = Name b ∧
          bindAll base fns g !! fnKey b = Some (ptrVariable (base + i)).
Proof.
  induction fns as [|b0 rest IH]; intros base g b Hb.
  - by apply elem_of_nil in Hb.
  - cbn [bindAll].
    destruct (decide (Exists (fun b' => Name b' = Name b) rest)) as [Hex|Hno].
    + apply Exists_exists in Hex as (b1 & Hb1 & Hname1).
      destruct (IH (S base) (<[fnKey b0 := ptrVariable base]> g) b1 Hb1)
        as (i & b' & Hi & Hname & Hlook).
      exists (S i), b'. split; [done|]. split; [congruence|].
      unfold fnKey in *. rewrite <- Hname1, Hlook. do 2 f_equal. lia.
    + apply elem_of_cons in Hb as [->|Hb].
      * exists 0%nat, b0. split; [done|]. split; [done|].
        rewrite bindAll_lookup_other.
        -- rewrite lookup_insert_eq. do 2 f_equal. lia.
        -- intros b' Hb' Heq. apply Hno, Exists_exists. exists b'. split; [done|].
           unfold fnKey in Heq. by simplify_eq.
      * destruct Hno. apply Exists_exists. by exists b.
Qed.

Lemma searchPaths_resolved host :
  (if decide (Getenv host "PATH" ≠ "") then Split (Getenv host "PATH") ":"%char
   else ["/bin"]) = resolvedPaths host.
Proof.
  unfold Getenv, resolvedPaths. destruct (environ host !! "PATH") as [path|]; simpl.
  - destruct (decide (path = "")), (decide (path ≠ "")); done.
  - by destruct (decide ("" ≠ "")).
Qed.

Lemma NewEvaler_runs host builtinFns st h :
  NewEvaler host builtinFns st h =
    (Returned (Some (length (hEvaler h))), builtState host builtinFns st h).
Proof.
  unfold NewEvaler. rewrite searchPaths_resolved.
  repeat (rewrite bind_unfold; cbn [newPtrVariable newNs]).
  rewrite (bindBuiltins_spec builtinFns _ (length (hNs h))
             (fixedGlobals (length (hBox h)))).
  - unfold newEvaler, builtState. simpl. f_equal. unfold setEvaler. simpl. f_equal.
    + rewrite <- (Nat.add_0_r (length (hNs h))) at 1. rewrite insert_app_r. simpl.
      rewrite !length_app. simpl.
      by replace (length (hBox h) + 1 + 1 + 1 + 1 + 1)%nat
        with (length (hBox h) + 5)%nat by lia.
    + by rewrite <- !app_assoc.
  - simpl. rewrite lookup_app_r by lia. rewrite Nat.sub_diag. simpl. f_equal.
    unfold fixedGlobals. rewrite !length_app. simpl.
    by replace (length (hBox h) + 1 + 1 + 1 + 1)%nat with (length (hBox h) + 4)%nat by lia;
       replace (length (hBox h) + 1 + 1 + 1)%nat with (length (hBox h) + 3)%nat by lia;
       replace (length (hBox h) + 1 + 1)%nat with (length (hBox h) + 2)%nat by lia;
       replace (length (hBox h) + 0)%nat with (length (hBox h)) by lia.
Qed.

Lemma fnKey_not_fixed b k :
  k ∈ ["pid"; "ok"; "true"; "false"; "paths"] → fnKey b ≠ k.
Proof.
  intros Hk Heq. subst k. unfold fnKey, FnPrefix in Hk.
  repeat (apply elem_of_cons in Hk as [Hk|Hk]; [discriminate Hk|]).
  by apply elem_of_nil in Hk.
Qed.

Lemma Split_nonempty s sep : Split s sep ≠ [].
Proof.
  destruct s as [|c s]; simpl; [done|].
  destruct (decide (c = sep)); [done|]. by destruct (Split s sep).
Qed.

Lemma Split_join s sep : String.concat (String sep "") (Split s sep) = s.
Proof.
  induction s as [|c s IH]; [done|]. simpl.
  pose proof (Split_nonempty s sep) as Hne.
  destruct (decide (c = sep)) as [->|Hc].
  - destruct (Split s sep) as [|w ws] eqn:Hs; [done|].
    change (String.concat (String sep "") ("" :: w :: ws))
      with ("" +:+ String sep "" +:+ String.concat (String sep "") (w :: ws)).
    by rewrite IH.
  - destruct (Split s sep) as [|w ws] eqn:Hs; [done|].
    destruct ws as [|y ws]; [simpl in *; by rewrite IH|].
    change (String.concat (String sep "") (String c w :: y :: ws))
      with (String c (w +:+ String sep "" +:+ String.concat (String sep "") (y :: ws))).
    by rewrite <- IH.
Qed.

Lemma Split_no_sep s sep : Forall (fun w => occurs sep w = false) (Split s sep).
Proof.
  induction s as [|c s IH]; simpl; [by repeat constructor|].
  destruct (decide (c = sep)) as [->|Hc]; [by constructor|].
  destruct (Split s sep) as [|w ws]; [by repeat constructor; simpl; rewrite bool_decide_eq_false_2|].
  apply Forall_cons in IH as [Hw Hws]. constructor; [|done].
  simpl. by rewrite bool_decide_eq_false_2.
Qed.

Lemma builtState_box host builtinFns st h k :
  hBox (builtState host builtinFns st h) !! (length (hBox h) + k)%nat =
  ([VString (Itoa (getpid host)); VOK; VBool true; VBool false;
    VList (VString <$> resolvedPaths host)] ++ (VBuiltinFn <$> builtinFns)) !! k.
Proof.
  simpl. rewrite lookup_app_r by lia. f_equal. lia.
Qed.

Lemma fixedGlobals_value host builtinFns st h key k :
  key ∈ ["pid"; "ok"; "true"; "false"; "paths"] →
  fixedGlobals (length (hBox h)) !! key = Some (ptrVariable (length (hBox h) + k)) →
  valueOf (builtState host builtinFns st h)
          (bindAll (length (hBox h) + 5) builtinFns (fixedGlobals (length (hBox h)))) key
  = ([VString (Itoa (getpid host)); VOK; VBool true; VBool false;
      VList (VString <$> resolvedPaths host)] ++ (VBuiltinFn <$> builtinFns)) !! k.
Proof.
  intros Hkey Hlook. unfold valueOf.
  rewrite bindAll_lookup_other by (intros b _; by apply fnKey_not_fixed).
  rewrite Hlook. cbn [mbind option_bind]. apply builtState_box.
Qed.

(** C7: [NewEvaler] returns for every store handle, with a new Evaler.
    Its search path is the entries of PATH between the colons, or the one
    entry /bin when PATH is unset or empty.  Its global namespace binds
    the five names pid, ok, true, false and paths and the prefixed name of
    every builtin, and no other name; the five hold the process id in
    decimal, the ok value, the two booleans and the list of the search
    path, and the prefixed name of a builtin holds a builtin of that name,
    itself when the names of the builtins differ from one another. *)
Theorem NewEvaler_total_initial_namespace host builtinFns st h :
  ∃ ev e g h',
    NewEvaler host builtinFns st h = (Returned ev, h') ∧
    deref (hEvaler h) ev = None ∧
    deref (hEvaler h') ev = Some e ∧
    ev_searchPaths e =
      match environ host !! "PATH" with
      | Some path => if decide (path = "") then ["/bin"] else Split path ":"%char
      | None => ["/bin"]
      end ∧
    (∀ path, String.concat ":" (Split path ":"%char) = path ∧
             Forall (fun entry => occurs ":"%char entry = false) (Split path ":"%char)) ∧
    ev_mod e = ∅ ∧ ev_store e = st ∧ ev_Editor e = None ∧
    deref (hNs h') (ev_global e) = Some g ∧
    dom g = {["pid"; "ok"; "true"; "false"; "paths"]} ∪ list_to_set (fnKey <$> builtinFns) ∧
    valueOf h' g "pid" = Some (VString (Itoa (getpid host))) ∧
    valueOf h' g "ok" = Some VOK ∧
    valueOf h' g "true" = Some (VBool true) ∧
    valueOf h' g "false" = Some (VBool false) ∧
    valueOf h' g "paths" = Some (VList (VString <$> ev_searchPaths e)) ∧
    (∀ b, b ∈ builtinFns →
       ∃ b', b' ∈ builtinFns ∧ Name b' = Name b ∧
             valueOf h' g (FnPrefix +:+ Name b) = Some (VBuiltinFn b')) ∧
    (NoDup (Name <$> builtinFns) →
     ∀ b, b ∈ builtinFns → valueOf h' g (FnPrefix +:+ Name b) = Some (VBuiltinFn b)).
Proof.
  set (n := length (hBox h)).
  set (g := bindAll (n + 5) builtinFns (fixedGlobals n)).
  assert (Hfn : ∀ b, b ∈ builtinFns →
            ∃ i b', builtinFns !! i = Some b' ∧ Name b' = Name b ∧
                    valueOf (builtState host builtinFns st h) g (FnPrefix +:+ Name b)
                    = Some (VBuiltinFn b')).
  { intros b Hb.
    destruct (bindAll_lookup_fn builtinFns (n + 5) (fixedGlobals n) b Hb)
      as (i & b' & Hi & Hname & Hlook).
    exists i, b'. split; [done|]. split; [done|].
    unfold valueOf. fold (fnKey b). unfold g. rewrite Hlook. cbn [mbind option_bind].
    replace (n + 5 + i)%nat with (n + (5 + i))%nat by lia. unfold n.
    rewrite builtState_box. simpl. by rewrite list_lookup_fmap, Hi. }
  exists (Some (length (hEvaler h))),
         (mkEvaler (Some (length (hNs h))) ∅ (resolvedPaths host) st None),
         g, (builtState host builtinFns st h).
  split; [apply NewEvaler_runs|]. split.
  { unfold deref. simpl. by apply lookup_ge_None_2. }
  split.
  { unfold deref. simpl. rewrite lookup_app_r by lia. by rewrite Nat.sub_diag. }
  split; [done|]. split.
  { intros path. split; [apply Split_join|apply Split_no_sep]. }
  do 3 (split; [done|]). split.
  { unfold deref. simpl. rewrite lookup_app_r by lia. by rewrite Nat.sub_diag. }
  split.
  { unfold g. rewrite bindAll_dom. unfold fixedGlobals.
    rewrite !dom_insert_L, dom_empty_L. set_solver. }
  split.
  { apply (fixedGlobals_value host builtinFns st h "pid" 0); [set_solver|].
    unfold fixedGlobals. by rewrite Nat.add_0_r. }
  split.
  { by apply (fixedGlobals_value host builtinFns st h "ok" 1); [set_solver|]. }
  split.
  { by apply (fixedGlobals_value host builtinFns st h "true" 2); [set_solver|]. }
  split.
  { by apply (fixedGlobals_value host builtinFns st h "false" 3); [set_solver|]. }
  split.
  { by apply (fixedGlobals_value host builtinFns st h "paths" 4); [set_solver|]. }
  split.
  - intros b Hb. destruct (Hfn b Hb) as (i & b' & Hi & Hname & Hval).
    exists b'. split; [|done]. by eapply list_elem_of_lookup_2.
  - intros Hnodup b Hb. destruct (Hfn b Hb) as (i & b' & Hi & Hname & Hval).
    rewrite Hval. do 2 f_equal.
    apply list_elem_of_lookup in Hb as [j Hj].
    assert (i = j) as ->; [|congruence].
    eapply NoDup_lookup; [exact Hnodup| |];
      rewrite list_lookup_fmap; [rewrite Hi|rewrite Hj]; simpl; by f_equal.
Qed.

(** ** The interactive output relay *)

Module RelayFacts.
Import Relay.

Section Facts.

Variable Repr : Value → string.
Variable todo : list action.
Variable res : outcome (option error).

Local Abbreviation inv := (Relay.inv Repr todo res).

Lemma inv_init : inv (EvalInteractive todo res).
Proof. repeat split; simpl; unfold outChanSize; lia. Qed.

Lemma rendered_worker out s : rendered (out ++ [(Worker, s)]) = rendered out ++ [s].
Proof. unfold rendered. by rewrite omap_app. Qed.

Lemma rendered_caller out s : rendered (out ++ [(Caller, s)]) = rendered out.
Proof. unfold rendered. rewrite omap_app. simpl. by rewrite app_nil_r. Qed.

Lemma inv_stepCaller st st' :
  inv st → stepCaller st = Some st' → inv st'.
Proof.
  intros (Hdata & Hcap & Hpc) Hstep. unfold stepCaller in Hstep.
  unfold inv, coherent in *.
  destruct st as [ch closed done out c w]. simpl in *.
  destruct c as [[|[v|s] rest] r|err|err|err|r]; simpl in *.
  - destruct r; simplify_eq/=; naive_solver.
  - destruct Hpc as (-> & -> & -> & Hw).
    destruct (Z.of_nat (length ch) <? outChanSize) eqn:Hfull; simplify_eq/=.
    apply Z.ltb_lt in Hfull. split; [|split; [|done]].
    + rewrite <- Hdata. f_equal. f_equal. by rewrite <- !app_assoc.
    + rewrite length_app. simpl. lia.
  - simplify_eq/=. by rewrite rendered_caller.
  - destruct Hpc as (-> & -> & -> & Hw). simplify_eq/=.
    repeat split; try done. by destruct w.
  - destruct Hpc as (-> & -> & Hw). destruct done; simplify_eq/=.
    destruct w; naive_solver.
  - done.
  - done.
Qed.

Lemma inv_stepWorker st st' :
  inv st → stepWorker Repr st = Some st' → inv st'.
Proof.
  intros (Hdata & Hcap & Hpc) Hstep. unfold stepWorker in Hstep.
  unfold inv, coherent in *.
  destruct st as [ch closed done out c w]. simpl in *.
  destruct w as [|v| |]; simpl in *.
  - destruct ch as [|v ch]; [destruct closed|]; simplify_eq/=.
    + split; [done|]. split; [done|]. destruct c; naive_solver.
    + split; [done|]. split; [lia|]. destruct c; naive_solver.
  - simplify_eq/=. split; [|split; [done|]].
    + rewrite rendered_worker, <- app_assoc. done.
    + destruct c; naive_solver.
  - simplify_eq/=. split; [done|]. split; [done|]. destruct c; naive_solver.
  - done.
Qed.

Lemma inv_run sched : ∀ st st',
  inv st → run Repr sched st = Some st' → inv st'.
Proof.
  induction sched as [|t sched IH]; intros st st' Hinv Hrun; simpl in Hrun.
  - by simplify_eq.
  - destruct (step Repr t st) as [st1|] eqn:Hstep; [|done]. simpl in Hrun.
    apply (IH st1 st'); [|done].
    destruct t; [by eapply inv_stepCaller|by eapply inv_stepWorker].
Qed.

(** Unless the caller has returned or is unwinding, some thread
    can move. *)
Lemma inv_progress st :
  inv st →
  (∀ err, caller st ≠ Return_ err) → (∀ r, caller st ≠ Unwinding r) →
  ∃ t st', step Repr t st = Some st'.
Proof.
  intros (_ & Hcap & Hpc) Hret Hunw. unfold coherent in Hpc.
  destruct st as [ch closed done out c w]. simpl in *.
  destruct c as [[|[v|s] rest] r|err|err|err|r].
  - exists Caller. simpl. unfold stepCaller. simpl. destruct r; eauto.
  - destruct Hpc as (_ & -> & _ & Hw).
    destruct (Z.of_nat (length ch) <? outChanSize) eqn:Hfull.
    + exists Caller. simpl. unfold stepCaller. simpl. rewrite Hfull. eauto.
    + exists Worker. simpl. unfold stepWorker. simpl.
      apply Z.ltb_ge in Hfull. unfold outChanSize in Hfull.
      destruct w; try done; [|eauto].
      destruct ch; [simpl in Hfull; lia|eauto].
  - exists Caller. simpl. unfold stepCaller. simpl. eauto.
  - destruct Hpc as (_ & -> & _). exists Caller. simpl. unfold stepCaller. simpl. eauto.
  - destruct Hpc as (_ & -> & Hw). destruct done.
    + exists Caller. simpl. unfold stepCaller. simpl. eauto.
    + exists Worker. simpl. unfold stepWorker. simpl.
      destruct w; [destruct ch| | |]; eauto. by destruct Hw.
  - by destruct (Hret err).
  - by destruct (Hunw r).
Qed.

Lemma step_fuel t st st' :
  step Repr t st = Some st' → (fuel st' < fuel st)%nat.
Proof.
  destruct st as [ch closed done out c w]. destruct t; simpl.
  - unfold stepCaller, fuel. simpl.
    destruct c as [[|[v|s] rest] r|err|err|err|r]; simpl;
      repeat case_match; intros; simplify_eq/=; rewrite ?length_app; simpl; lia.
  - unfold stepWorker, fuel. simpl.
    destruct w; simpl; repeat case_match; intros; simplify_eq/=; lia.
Qed.


End Facts.


End RelayFacts.

(** * The statements at the sample states *)

Lemma sample_ports_present :
  Forall (present sampleState) (elems sampleState (ec_ports sampleCtx)).
Proof.
  change (elems sampleState (ec_ports sampleCtx)) with [Some 0%nat; Some 1%nat].
  repeat (constructor; [eexists; reflexivity|]). constructor.
Defined.

Lemma PEval_single_recovery_boundary_witness :
  PEval (Some 0%nat) (fun _ => ret tt) sampleState = (Returned None, sampleState) ∧
  PEval (Some 0%nat) (fun _ => throw (flow "break")) sampleState
    = (Returned (Some (flow "break")),
       setRecovered (fun l => l ++ [exception (flow "break")]) sampleState) ∧
  ∃ h', PEval (Some 0%nat)
          (inForks ["pipeline"; "closure"; "form"]
                   (fun e => errorf string sampleSprintf e 7 "no such command: " ["gti"]))
          sampleState
        = (Returned (Some (contextualError
             (mkContextualError "script.elv (form)" "error" "put a" 7
                                "no such command: gti"))), h') ∧
        recovered h' = [exception (contextualError
             (mkContextualError "script.elv (form)" "error" "put a" 7
                                "no such command: gti"))].
Proof.
  split; [|split].
  - apply (PEval_single_recovery_boundary string sampleSprintf (Some 0%nat)
             (fun _ => ret tt) sampleState). reflexivity.
  - apply (PEval_single_recovery_boundary string sampleSprintf (Some 0%nat)
             (fun _ => throw (flow "break")) sampleState). reflexivity.
  - destruct (PEval_single_recovery_boundary string sampleSprintf (Some 0%nat)
                (fun _ => ret tt) sampleState) as (_ & _ & Hforks).
    exact (Hforks sampleCtx ["pipeline"; "closure"; "form"] 7 "no such command: "
                  ["gti"] eq_refl sample_ports_present).
Defined.

Lemma fork_shares_and_copies_witness :
  ∃ child c' h',
    fork (Some 0%nat) "child" sampleState = (Returned child, h') ∧
    deref (hCtx h') child = Some c' ∧
    ec_context c' = "child" ∧ ec_local c' = Some 0%nat ∧
    length (elems h' (ec_ports c')) = 2%nat.
Proof.
  destruct (fork_shares_and_copies sampleState (Some 0%nat) sampleCtx "child"
              eq_refl sample_ports_present)
    as (child & c' & h' & Hrun & _ & Hc' & _ & _ & _ & Hlocal & _ & Hctx & _ & _ & Hlen & _).
  exists child, c', h'. repeat split; assumption.
Defined.

Lemma fork_every_context_counterexample :
  deref (hCtx gappedState) (Some 0%nat) = Some gappedCtx ∧
  ¬ ∃ child h', fork (Some 0%nat) "child" gappedState = (Returned child, h').
Proof.
  split; [reflexivity|]. intros (child & h' & Hrun). vm_compute in Hrun. discriminate Hrun.
Qed.

Lemma ResolveVar_precedence_witness :
  ResolveVar (Some 0%nat) "env" "HOME" sampleState
    = (Returned (Some (envVariable "HOME")), sampleState) ∧
  ResolveVar (Some 0%nat) "re" "f" sampleState
    = (Returned (Some (ptrVariable 2%nat)), sampleState) ∧
  ResolveVar (Some 0%nat) "" "y" sampleState
    = (Returned (Some (ptrVariable 1%nat)), sampleState) ∧
  ResolveVar (Some 0%nat) "local" "y" sampleState = (Returned None, sampleState) ∧
  ResolveVar (Some 0%nat) "up" "y" sampleState
    = (Returned (Some (ptrVariable 1%nat)), sampleState) ∧
  ResolveVar (Some 0%nat) "builtin" "x" sampleState = (Returned None, sampleState).
Proof.
  pose (e := mkEvaler (Some 0%nat) {["re" := Some 2%nat]} ["/bin"] None None).
  split.
  { apply (ResolveVar_precedence sampleState (Some 0%nat) "env" "HOME"). reflexivity. }
  split.
  { destruct (ResolveVar_precedence sampleState (Some 0%nat) "re" "f") as [_ H].
    destruct (H sampleCtx e ltac:(discriminate) eq_refl eq_refl) as [Hmod _].
    apply (Hmod (Some 2%nat)). reflexivity. }
  split.
  { destruct (ResolveVar_precedence sampleState (Some 0%nat) "" "y") as [_ H].
    destruct (H sampleCtx e ltac:(discriminate) eq_refl eq_refl) as [_ Hrest].
    destruct (Hrest eq_refl) as (Hempty & _). exact (Hempty eq_refl). }
  split.
  { destruct (ResolveVar_precedence sampleState (Some 0%nat) "local" "y") as [_ H].
    destruct (H sampleCtx e ltac:(discriminate) eq_refl eq_refl) as [_ Hrest].
    destruct (Hrest eq_refl) as (_ & Hlocal & _). exact (Hlocal eq_refl). }
  split.
  { destruct (ResolveVar_precedence sampleState (Some 0%nat) "up" "y") as [_ H].
    destruct (H sampleCtx e ltac:(discriminate) eq_refl eq_refl) as [_ Hrest].
    destruct (Hrest eq_refl) as (_ & _ & Hup & _). exact (Hup eq_refl). }
  { destruct (ResolveVar_precedence sampleState (Some 0%nat) "builtin" "x") as [_ H].
    destruct (H sampleCtx e ltac:(discriminate) eq_refl eq_refl) as [_ Hrest].
    destruct (Hrest eq_refl) as (_ & _ & _ & Hother).
    apply Hother; discriminate. }
Defined.


Lemma port_within_or_beyond_witness :
  port (Some 0%nat) 5 sampleState = (Returned None, sampleState) ∧
  ∃ p, elems sampleState (ec_ports sampleCtx) !! Z.to_nat 1 = Some p ∧
       port (Some 0%nat) 1 sampleState = (Returned p, sampleState).
Proof.
  destruct (port_within_or_beyond sampleState (Some 0%nat) sampleCtx 5 eq_refl)
    as [Hbeyond _].
  destruct (port_within_or_beyond sampleState (Some 0%nat) sampleCtx 1 eq_refl)
    as [_ Hwithin].
  split.
  - apply Hbeyond. vm_compute. discriminate.
  - apply Hwithin. split; vm_compute; [discriminate|reflexivity].
Defined.

Lemma port_below_length_counterexample :
  deref (hCtx sampleState) (Some 0%nat) = Some sampleCtx ∧
  -1 < len sampleState (ec_ports sampleCtx) ∧
  ¬ ∃ p h', port (Some 0%nat) (-1) sampleState = (Returned p, h').
Proof.
  split; [reflexivity|]. split; [reflexivity|].
  intros (p & h' & Hrun). vm_compute in Hrun. discriminate Hrun.
Qed.

Lemma port_negative_index_faults_witness :
  port (Some 0%nat) (-1) sampleState
    = (Panicked (runtimePanic indexOutOfRange), sampleState) ∧
  ∃ p, port (Some 0%nat) 7 sampleState = (Returned p, sampleState).
Proof.
  destruct (port_negative_index_faults sampleState (Some 0%nat) sampleCtx (-1) eq_refl)
    as [Hneg _].
  destruct (port_negative_index_faults sampleState (Some 0%nat) sampleCtx 7 eq_refl)
    as [_ Hpos].
  split.
  - apply Hneg. reflexivity.
  - apply Hpos. vm_compute. discriminate.
Defined.

Lemma growPorts_idempotent_monotone_witness :
  ∃ h', growPorts (Some 0%nat) 4 sampleState = (Returned tt, h') ∧
        portsOf h' (Some 0%nat) = [Some 0%nat; Some 1%nat; None; None] ∧
        hPort h' = hPort sampleState ∧
        growPorts (Some 0%nat) 4 h' = (Returned tt, h') ∧
        ∃ h'', growPorts (Some 0%nat) 1 h' = (Returned tt, h'') ∧
               (length (portsOf h' (Some 0%nat)) ≤ length (portsOf h'' (Some 0%nat)))%nat.
Proof.
  assert (Hfour : 4 * ptrSize ≤ maxAlloc) by (vm_compute; discriminate).
  assert (Hone : 1 * ptrSize ≤ maxAlloc) by (vm_compute; discriminate).
  destruct (growPorts_idempotent_monotone sampleState (Some 0%nat) sampleCtx 4
              eq_refl Hfour)
    as (h' & Hrun & _ & _ & Hseq & Hport & Hagain & Hmore).
  destruct (Hmore 1 Hone) as (h'' & Hrun2 & _ & Hlen & _).
  exists h'. split; [exact Hrun|]. split; [exact Hseq|]. split; [exact Hport|].
  split; [exact Hagain|]. exists h''. split; [exact Hrun2|exact Hlen].
Defined.

Lemma growPorts_every_length_counterexample :
  deref (hCtx sampleState) (Some 0%nat) = Some sampleCtx ∧
  growPorts (Some 0%nat) 9223372036854775807 sampleState
    = (Panicked (runtimePanic lenOutOfRange), sampleState) ∧
  ¬ ∃ h', growPorts (Some 0%nat) 9223372036854775807 sampleState = (Returned tt, h').
Proof.
  assert (Hrun : growPorts (Some 0%nat) 9223372036854775807 sampleState
                 = (Panicked (runtimePanic lenOutOfRange), sampleState)).
  { apply (growPorts_too_long sampleState (Some 0%nat) sampleCtx); reflexivity. }
  split; [reflexivity|]. split; [exact Hrun|].
  intros [h' Hret]. rewrite Hrun in Hret. discriminate Hret.
Qed.

Lemma gapped_ports_wellformed :
  Forall (fun p => p = None ∨ present gappedState p)
         (elems gappedState (ec_ports gappedCtx)).
Proof.
  change (elems gappedState (ec_ports gappedCtx)) with [Some 0%nat; None].
  constructor; [right; eexists; reflexivity|].
  constructor; [left; reflexivity|]. constructor.
Defined.

Lemma fork_faults_on_absent_entry_witness :
  (∃ h', fork (Some 0%nat) "child" gappedState
         = (Panicked (runtimePanic nilDereference), h')) ∧
  (∃ child h', fork (Some 0%nat) "child" sampleState = (Returned child, h')) ∧
  (∃ h', (growPorts (Some 0%nat) 3 ≫= fun _ => fork (Some 0%nat) "child") sampleState
         = (Panicked (runtimePanic nilDereference), h')).
Proof.
  destruct (fork_faults_on_absent_entry gappedState (Some 0%nat) gappedCtx "child"
              eq_refl gapped_ports_wellformed) as (Hnil & _ & _).
  assert (Hwf : Forall (fun p => p = None ∨ present sampleState p)
                       (elems sampleState (ec_ports sampleCtx))).
  { change (elems sampleState (ec_ports sampleCtx)) with [Some 0%nat; Some 1%nat].
    repeat (constructor; [right; eexists; reflexivity|]). constructor. }
  destruct (fork_faults_on_absent_entry sampleState (Some 0%nat) sampleCtx "child"
              eq_refl Hwf) as (_ & Hfull & Hgrown).
  split; [|split].
  - apply Hnil. change (elems gappedState (ec_ports gappedCtx)) with [Some 0%nat; None].
    right. left.
  - apply Hfull. change (elems sampleState (ec_ports sampleCtx)) with [Some 0%nat; Some 1%nat].
    intros Hin. apply elem_of_cons in Hin as [Hin|Hin]; [discriminate Hin|].
    apply elem_of_cons in Hin as [Hin|Hin]; [discriminate Hin|].
    by apply elem_of_nil in Hin.
  - apply Hgrown; [reflexivity|]. vm_compute. discriminate.
Defined.

Lemma NewEvaler_total_initial_namespace_witness :
  ∃ ev e g h',
    NewEvaler sampleHost sampleBuiltins None sampleState = (Returned ev, h') ∧
    deref (hEvaler h') ev = Some e ∧
    ev_searchPaths e = ["/usr/bin"; "/bin"] ∧
    deref (hNs h') (ev_global e) = Some g ∧
    valueOf h' g "&put" = Some (VBuiltinFn (mkBuiltinFn "put" 0)) ∧
    valueOf h' g "&echo" = Some (VBuiltinFn (mkBuiltinFn "echo" 1)).
Proof.
  destruct (NewEvaler_total_initial_namespace sampleHost sampleBuiltins None sampleState)
    as (ev & e & g & h' & Hrun & _ & He & Hpaths & _ & _ & _ & _ & Hg & _ & _ & _ & _ & _
        & _ & _ & Hfns).
  assert (Hnodup : NoDup (Name <$> sampleBuiltins)).
  { apply NoDup_cons. split.
    - intros Hin. apply elem_of_cons in Hin as [Hin|Hin]; [discriminate Hin|].
      by apply elem_of_nil in Hin.
    - apply NoDup_singleton. }
  exists ev, e, g, h'. split; [exact Hrun|]. split; [exact He|].
  split; [exact Hpaths|]. split; [exact Hg|]. split.
  - apply (Hfns Hnodup (mkBuiltinFn "put" 0)). left.
  - apply (Hfns Hnodup (mkBuiltinFn "echo" 1)). right. left.
Defined.

Lemma PprintError_renders_by_kind_witness :
  PprintError sampleRepr_error
    (Some (multiError [mkError (Some (flow "break")); mkError (Some (otherError "boom"))]))
    "" = "(" +:+ yellow "break" +:+ " | " +:+ boldRed "boom" +:+ ")" ∧
  render sampleRepr_error (Some (flow "break"))
    ≠ render sampleRepr_error (Some (otherError "break")).
Proof.
  destruct (PprintError_renders_by_kind sampleRepr_error)
    as (Hprint & _ & _ & Htwo & _ & _ & _ & Hdistinct).
  split.
  - rewrite Hprint. exact (Htwo (Some (flow "break")) (Some (otherError "boom"))).
  - apply Hdistinct. intros m. discriminate.
Defined.

(** * Further properties *)

(** ** Scopes *)

Lemma makeScope_loop names : ∀ (sc : scope) k,
  foldl (fun sc name => <[name := true]> sc) sc names !! k =
  if decide (k ∈ names) then Some true else sc !! k.
Proof.
  induction names as [|name names IH]; intros sc k; simpl.
  - destruct (decide (k ∈ [])) as [Hin|]; [by apply elem_of_nil in Hin|done].
  - rewrite IH. destruct (decide (k ∈ names)) as [Hin|Hnotin].
    + rewrite decide_True; [done|]. by right.
    + destruct (decide (k = name)) as [->|Hne].
      * rewrite lookup_insert_eq. rewrite decide_True; [done|]. by left.
      * rewrite lookup_insert_ne by done. rewrite decide_False; [done|].
        intros Hin. apply elem_of_cons in Hin as [?|?]; done.
Qed.

Lemma elem_of_keys (s : ns) k : k ∈ (map_to_list s).*1 ↔ is_Some (s !! k).
Proof.
  rewrite list_elem_of_fmap. split.
  - intros ([k' v] & -> & Hin). apply elem_of_map_to_list in Hin. by exists v.
  - intros [v Hv]. exists (k, v). split; [done|]. by apply elem_of_map_to_list.
Qed.

(** The scope that [makeScope] derives has the names of the namespace
    and no other, each bound to true, in whatever order the loop visits
    the map. *)
Theorem makeScope_names_any_order (s : ns) (names : list string) :
  names ≡ₚ (map_to_list s).*1 →
  makeScopeOver names = makeScope s ∧
  dom (makeScope s) = dom s ∧
  ∀ k, makeScope s !! k = (fun _ => true) <$> s !! k.
Proof.
  intros Hperm.
  assert (Hlook : ∀ k, makeScope s !! k = (fun _ => true) <$> s !! k).
  { intros k. unfold makeScope, makeScopeOver. rewrite makeScope_loop, lookup_empty.
    destruct (decide (k ∈ (map_to_list s).*1)) as [Hin|Hnotin].
    - apply elem_of_keys in Hin as [v ->]. done.
    - destruct (s !! k) as [v|] eqn:Hk; [|done].
      destruct Hnotin. apply elem_of_keys. by exists v. }
  split; [|split; [|done]].
  - apply map_eq. intros k. unfold makeScope, makeScopeOver. rewrite !makeScope_loop.
    destruct (decide (k ∈ names)) as [Hin|Hnotin].
    + rewrite decide_True; [done|]. by rewrite <- Hperm.
    + rewrite decide_False; [done|]. by rewrite <- Hperm.
  - apply set_eq. intros k. rewrite !elem_of_dom, Hlook.
    by rewrite fmap_is_Some.
Qed.

(** ** Top-level contexts and the global namespace *)

Lemma NewTopEvalCtx_ok h ev e name text ports :
  deref (hEvaler h) ev = Some e →
  NewTopEvalCtx ev name text ports h =
    (Returned (Some (length (hCtx h))), topState h ev e name text ports).
Proof.
  intros E. unfold NewTopEvalCtx.
  by rewrite (bind_returned _ _ _ _ _ (load_some hEvaler ev e h E)).
Qed.

Lemma topState_ctx h ev e name text ports :
  deref (hCtx (topState h ev e name text ports)) (Some (length (hCtx h))) =
  Some (mkEvalCtx ev name text "top" (ev_global e) (Some (length (hNs h))) ports).
Proof. unfold deref. simpl. rewrite lookup_app_r by lia. by rewrite Nat.sub_diag. Qed.

(** The local namespace of a top-level context is the global namespace
    itself: a name bound through [Global] after the context was made
    resolves in the context, unqualified or as [local:], to the variable
    bound, unless the qualifier names a module. *)
Theorem top_context_sees_global h ev e a g name text ports q key v :
  deref (hEvaler h) ev = Some e →
  ev_global e = Some a →
  hNs h !! a = Some g →
  q = "" ∨ q = "local" →
  ev_mod e !! q = None →
  ∃ h', (ec ← NewTopEvalCtx ev name text ports;
         gl ← Global ev;
         mapassign gl key v;;
         ResolveVar ec q key) h = (Returned (Some v), h') ∧
        deref (hNs h') (Some a) = Some (<[key := v]> g).
Proof.
  intros E Hgl Hg Hq Hmod.
  rewrite (bind_returned _ _ _ _ _ (NewTopEvalCtx_ok h ev e name text ports E)).
  set (h0 := topState h ev e name text ports).
  assert (Hglobal : Global ev h0 = (Returned (Some a), h0)).
  { unfold Global. rewrite (bind_returned _ _ _ _ _ (load_some hEvaler ev e h0 E)).
    by rewrite Hgl. }
  rewrite (bind_returned _ _ _ _ _ Hglobal).
  set (h1 := setNs (alter (fun g => <[key := v]> g) a) h0).
  rewrite (bind_returned (mapassign (Some a) key v) _ h0 tt h1 eq_refl).
  assert (Hns : deref (hNs h1) (Some a) = Some (<[key := v]> g)).
  { unfold deref. simpl. rewrite list_lookup_alter_eq.
    by rewrite (lookup_app_l_Some _ _ _ _ Hg). }
  exists h1. split; [|done].
  rewrite (ResolveVar_unfold h1 (Some (length (hCtx h)))
             (mkEvalCtx ev name text "top" (ev_global e) (Some (length (hNs h))) ports)
             e q key).
  - rewrite Hmod. simpl. rewrite Hgl. unfold nsAt. rewrite Hns. simpl.
    rewrite lookup_insert_eq. by destruct Hq as [-> | ->].
  - by destruct Hq as [-> | ->].
  - apply topState_ctx.
  - done.
Qed.

Lemma builtState_fn_value host builtinFns st h b :
  NoDup (Name <$> builtinFns) →
  b ∈ builtinFns →
  ∃ a, bindAll (length (hBox h) + 5) builtinFns (fixedGlobals (length (hBox h)))
         !! fnKey b = Some (ptrVariable a) ∧
       hBox (builtState host builtinFns st h) !! a = Some (VBuiltinFn b).
Proof.
  intros Hnodup Hb.
  destruct (bindAll_lookup_fn builtinFns (length (hBox h) + 5)
              (fixedGlobals (length (hBox h))) b Hb) as (i & b' & Hi & Hname & Hlook).
  exists (length (hBox h) + 5 + i)%nat. split; [done|].
  replace (length (hBox h) + 5 + i)%nat with (length (hBox h) + (5 + i))%nat by lia.
  rewrite builtState_box. simpl. rewrite list_lookup_fmap, Hi. simpl. do 2 f_equal.
  apply list_elem_of_lookup in Hb as [j Hj].
  assert (i = j) as ->; [|congruence].
  eapply NoDup_lookup; [exact Hnodup| |];
    rewrite list_lookup_fmap; [rewrite Hi|rewrite Hj]; simpl; by f_equal.
Qed.

Lemma resolveAtTop_runs host builtinFns st name text ports q key h :
  q ≠ "env" →
  let g := bindAll (length (hBox h) + 5) builtinFns (fixedGlobals (length (hBox h))) in
  let e := mkEvaler (Some (length (hNs h))) ∅ (resolvedPaths host) st None in
  let hT := topState (builtState host builtinFns st h) (Some (length (hEvaler h))) e
                     name text ports in
  resolveAtTop host builtinFns st name text ports q key h =
    (Returned (if bool_decide (q = "") || bool_decide (q = "local")
               then g !! key else None), hT).
Proof.
  intros Hq g e hT. unfold resolveAtTop.
  rewrite (bind_returned _ _ _ _ _ (NewEvaler_runs host builtinFns st h)).
  assert (He : deref (hEvaler (builtState host builtinFns st h)) (Some (length (hEvaler h)))
               = Some e).
  { unfold deref. simpl. rewrite lookup_app_r by lia. by rewrite Nat.sub_diag. }
  rewrite (bind_returned _ _ _ _ _ (NewTopEvalCtx_ok _ _ e name text ports He)).
  rewrite (ResolveVar_unfold _ _ _ e q key Hq (topState_ctx _ _ e name text ports) He).
  fold hT. f_equal. simpl. rewrite lookup_empty.
  assert (Hlocal : nsAt hT (Some (length (hNs h))) = g).
  { unfold nsAt, deref. simpl. rewrite <- app_assoc.
    rewrite lookup_app_r by lia. by rewrite Nat.sub_diag. }
  assert (Hup : nsAt hT (Some (length (hNs h ++ [g]))) = ∅).
  { unfold nsAt, deref, g. simpl. rewrite lookup_app_r by lia. by rewrite Nat.sub_diag. }
  fold g. rewrite Hlocal, Hup, lookup_empty.
  destruct (bool_decide (q = "") || bool_decide (q = "local")).
  - destruct (g !! key); by destruct (bool_decide (q = "") || bool_decide (q = "up")).
  - by destruct (bool_decide (q = "") || bool_decide (q = "up")).
Qed.

(** In a top-level context of a newly made Evaler the unqualified names
    pid, ok, true, false and paths resolve to cells that hold the process
    id, the ok value, the booleans and the search path, and the prefixed
    name of a builtin, when the names of the builtins differ, to a cell
    that holds this builtin; the qualifier [up] resolves nothing. *)
Theorem new_evaler_top_context_resolves host builtinFns st h name text ports :
  (∀ key val,
     (key, val) ∈ [("pid", VString (Itoa (getpid host))); ("ok", VOK);
                   ("true", VBool true); ("false", VBool false);
                   ("paths", VList (VString <$> resolvedPaths host))] →
     ∃ a h', resolveAtTop host builtinFns st name text ports "" key h
               = (Returned (Some (ptrVariable a)), h') ∧
             hBox h' !! a = Some val) ∧
  (NoDup (Name <$> builtinFns) →
   ∀ b, b ∈ builtinFns →
     ∃ a h', resolveAtTop host builtinFns st name text ports "" (FnPrefix +:+ Name b) h
               = (Returned (Some (ptrVariable a)), h') ∧
             hBox h' !! a = Some (VBuiltinFn b)) ∧
  (∀ key, ∃ h', resolveAtTop host builtinFns st name text ports "up" key h
                = (Returned None, h')).
Proof.
  split; [|split].
  - intros key val Hin.
    assert (Hfixed : ∃ k, fixedGlobals (length (hBox h)) !! key
                          = Some (ptrVariable (length (hBox h) + k)) ∧
                          hBox (builtState host builtinFns st h) !! (length (hBox h) + k)%nat
                          = Some val ∧
                          key ∈ ["pid"; "ok"; "true"; "false"; "paths"]).
    { repeat (apply elem_of_cons in Hin as [Hin|Hin];
              [injection Hin as -> ->|]); [| | | | |by apply elem_of_nil in Hin].
      - exists 0%nat. rewrite builtState_box. split; [|split; [done|set_solver]].
        unfold fixedGlobals. by rewrite Nat.add_0_r.
      - exists 1%nat. rewrite builtState_box. split; [done|split; [done|set_solver]].
      - exists 2%nat. rewrite builtState_box. split; [done|split; [done|set_solver]].
      - exists 3%nat. rewrite builtState_box. split; [done|split; [done|set_solver]].
      - exists 4%nat. rewrite builtState_box. split; [done|split; [done|set_solver]]. }
    destruct Hfixed as (k & Hlook & Hbox & Hkey).
    eexists _, _. rewrite resolveAtTop_runs by done. simpl. split;
      [rewrite bindAll_lookup_other by (intros b _; by apply fnKey_not_fixed);
       by rewrite Hlook
      |exact Hbox].
  - intros Hnodup b Hb.
    destruct (builtState_fn_value host builtinFns st h b Hnodup Hb) as (a & Hlook & Hbox).
    exists a. eexists. rewrite resolveAtTop_runs by done. simpl.
    split; [fold (fnKey b); by rewrite Hlook|exact Hbox].
  - intros key. eexists. by rewrite resolveAtTop_runs.
Qed.

(** ** Forked contexts *)

Lemma forkedState_child h c newContext qs :
  deref (hCtx (forkedState h c newContext qs)) (Some (length (hCtx h))) =
  Some (mkEvalCtx (ec_Evaler c) (ec_name c) (ec_text c) newContext
                  (ec_local c) (ec_up c) (Some (length (hArr h)))).
Proof. unfold deref. simpl. rewrite lookup_app_r by lia. by rewrite Nat.sub_diag. Qed.

Lemma ResolveVar_cases h ec c q key :
  q ≠ "env" →
  deref (hCtx h) ec = Some c →
  ResolveVar ec q key h =
    (match deref (hEvaler h) (ec_Evaler c) with
     | Some e =>
         Returned
           match ev_mod e !! q with
           | Some m => nsAt h m !! key
           | None =>
               let fromUp := if bool_decide (q = "") || bool_decide (q = "up")
                             then nsAt h (ec_up c) !! key else None in
               if bool_decide (q = "") || bool_decide (q = "local")
               then match nsAt h (ec_local c) !! key with
                    | Some v => Some v
                    | None => fromUp
                    end
               else fromUp
           end
     | None => Panicked (runtimePanic nilDereference)
     end, h).
Proof.
  intros Hq E. destruct (deref (hEvaler h) (ec_Evaler c)) as [e|] eqn:Ee.
  - by apply ResolveVar_unfold.
  - unfold ResolveVar. destruct (decide (q = "env")); [done|].
    rewrite (bind_returned _ _ _ _ _ (load_some hCtx ec c h E)).
    by rewrite (bind_panicked _ _ _ _ _ (load_none hEvaler _ h Ee)).
Qed.

(** A forked context resolves every variable as its parent does: to the
    same variable, or with the same fault, and without a change of the
    store. *)
Theorem fork_resolves_as_parent h ec c newContext :
  deref (hCtx h) ec = Some c →
  Forall (present h) (elems h (ec_ports c)) →
  ∃ child h',
    fork ec newContext h = (Returned child, h') ∧
    ∀ q key, ResolveVar child q key h' = ((ResolveVar ec q key h).1, h') ∧
             (ResolveVar ec q key h).2 = h.
Proof.
  intros E Hall. destruct (fork_present h ec c newContext E Hall) as (qs & _ & Hrun).
  eexists _, _. split; [exact Hrun|]. intros q key.
  pose proof (forkedState_child h c newContext qs) as Hchild.
  destruct (decide (q = "env")) as [->|Hq]; [done|].
  rewrite (ResolveVar_cases _ _ _ q key Hq Hchild).
  rewrite (ResolveVar_cases _ _ _ q key Hq E). done.
Qed.

Lemma elems_frame h h' s :
  validSlice h s →
  (∀ a l, hArr h !! a = Some l → hArr h' !! a = Some l) →
  elems h' s = elems h s.
Proof.
  intros [->|[l Hl]] Hframe; [done|].
  destruct s as [a|]; [|done]. unfold elems, deref in *. simpl in *.
  by rewrite Hl, (Hframe a l Hl).
Qed.

(** What a forked context does to its own Port sequence stays its own:
    after [growPorts] on the child, with any [n], the parent has the
    sequence and the Ports it had, whether [growPorts] returns or [make]
    refuses the length; for a length that [make] accepts it returns, and
    the child has its copies and the nils behind them. *)
Theorem fork_then_growPorts_leaves_parent h ec c newContext n :
  deref (hCtx h) ec = Some c →
  Forall (present h) (elems h (ec_ports c)) →
  validSlice h (ec_ports c) →
  ∃ child h' r h'',
    fork ec newContext h = (Returned child, h') ∧
    growPorts child n h' = (r, h'') ∧
    (r = Returned tt ∨ r = Panicked (runtimePanic lenOutOfRange)) ∧
    (n * ptrSize ≤ maxAlloc →
     r = Returned tt ∧
     length (portsOf h'' child) = (length (portsOf h ec) `max` Z.to_nat n)%nat) ∧
    deref (hCtx h'') ec = Some c ∧
    portsOf h'' ec = portsOf h ec ∧
    (∀ p q, deref (hPort h) p = Some q → deref (hPort h'') p = Some q).
Proof.
  intros E Hall Hvalid.
  destruct (fork_present h ec c newContext E Hall) as (qs & Hqs & Hrun).
  pose proof (Forall2_length _ _ _ Hqs) as Hlen.
  pose proof (forkedState_child h c newContext qs) as Hchild.
  set (h' := forkedState h c newContext qs) in *.
  set (c' := mkEvalCtx _ _ _ _ _ _ _) in Hchild.
  assert (Hp : portsOf h ec = elems h (ec_ports c)) by (unfold portsOf; by rewrite E).
  assert (Hc'ports : elems h' (ec_ports c') = Some <$> seq (length (hPort h)) (length qs)).
  { unfold elems, deref. simpl. rewrite lookup_app_r by lia. by rewrite Nat.sub_diag. }
  assert (Hec : ∃ a, ec = Some a ∧ hCtx h !! a = Some c).
  { destruct ec as [a|]; [by exists a|done]. }
  destruct Hec as (a & -> & Ha).
  assert (Halt : a ≠ length (hCtx h)) by (apply lookup_lt_Some in Ha; lia).
  assert (Hec' : deref (hCtx h') (Some a) = Some c) by (by apply deref_alloc).
  assert (Hsame : portsOf h' (Some a) = portsOf h (Some a)).
  { unfold portsOf. rewrite Hec', E.
    apply elems_frame; [done|]. intros b l Hb. simpl. by apply lookup_app_l_Some. }
  assert (Hkept : ∀ p q, deref (hPort h) p = Some q → deref (hPort h') p = Some q).
  { intros p q Hq. by apply deref_alloc. }
  assert (Hchildlen : len h' (ec_ports c') = Z.of_nat (length qs)).
  { unfold len. by rewrite Hc'ports, length_fmap, length_seq. }
  destruct (Z_le_gt_dec n (len h' (ec_ports c'))) as [Hle|Hgt].
  - exists (Some (length (hCtx h))), h', (Returned tt), h'. split; [done|].
    split; [by apply (growPorts_enough _ _ c')|]. split; [by left|].
    split; [|done]. intros _. split; [done|].
    unfold portsOf at 1. rewrite Hchild, Hc'ports, length_fmap, length_seq.
    rewrite Hp, Hlen. lia.
  - destruct (Z_le_gt_dec (n * ptrSize) maxAlloc) as [Hlimit|Hbig].
    + exists (Some (length (hCtx h))), h', (Returned tt),
             (grown h' (length (hCtx h)) c' n).
      split; [done|]. split.
      { apply growPorts_grows; [exact Hchild|lia|done]. }
      split; [by left|]. split.
      { intros _. split; [done|].
        rewrite (portsOf_grown h' _ c' n Hchild), length_app, length_replicate, Hc'ports.
        rewrite length_fmap, length_seq, Hp, Hlen. lia. }
      split.
      { unfold deref. simpl. rewrite list_lookup_insert_ne by done.
        by apply lookup_app_l_Some. }
      split.
      * unfold portsOf at 1. unfold deref at 1. simpl.
        rewrite list_lookup_insert_ne by done. rewrite (lookup_app_l_Some _ _ _ _ Ha).
        rewrite Hp. apply elems_frame; [done|]. intros b l Hb. simpl.
        by apply lookup_app_l_Some, lookup_app_l_Some.
      * intros p q Hq. simpl. by apply deref_alloc.
    + exists (Some (length (hCtx h))), h', (Panicked (runtimePanic lenOutOfRange)), h'.
      split; [done|]. split.
      { apply (growPorts_too_long _ _ c'); [exact Hchild|lia|lia]. }
      split; [by right|]. split; [intros Hlimit; lia|done].
Qed.

(** ** Port access after growing and after forking *)

Lemma port_portsOf h ec c i :
  deref (hCtx h) ec = Some c →
  port ec i h =
    (if Z.of_nat (length (portsOf h ec)) <=? i then Returned None
     else if i <? 0 then Panicked (runtimePanic indexOutOfRange)
     else match portsOf h ec !! Z.to_nat i with
          | Some p => Returned p
          | None => Panicked (runtimePanic indexOutOfRange)
          end, h).
Proof.
  intros E. rewrite (port_unfold _ _ _ _ E).
  assert (Hp : portsOf h ec = elems h (ec_ports c)) by (unfold portsOf; by rewrite E).
  rewrite Hp. unfold len.
  destruct (Z.of_nat (length (elems h (ec_ports c))) <=? i) eqn:Hle; [done|].
  unfold index, len. rewrite Hle. destruct (i <? 0); simpl; [done|].
  by destruct (elems h (ec_ports c) !! Z.to_nat i).
Qed.

(** [growPorts] cannot be observed through [port]: at every index, in
    range, beyond or negative, [port] answers after [growPorts] as it
    did before, whether [growPorts] returns, as it does for every length
    that [make] accepts, or [make] refuses the length. *)
Theorem growPorts_invisible_to_port h ec c n i :
  deref (hCtx h) ec = Some c →
  ∃ r h', growPorts ec n h = (r, h') ∧
          (r = Returned tt ∨ r = Panicked (runtimePanic lenOutOfRange)) ∧
          (n * ptrSize ≤ maxAlloc → r = Returned tt) ∧
          (port ec i h').1 = (port ec i h).1 ∧
          (port ec i h').2 = h'.
Proof.
  intros E.
  destruct (Z_le_gt_dec (n * ptrSize) maxAlloc) as [Hlimit|Hbig].
  - destruct (growPorts_spec h ec c n E Hlimit) as (h' & Hrun & _ & [c' E'] & _ & Hseq).
    exists (Returned tt), h'. split; [done|]. split; [by left|]. split; [done|].
    rewrite (port_portsOf h' ec c' i E'), (port_portsOf h ec c i E). simpl.
    split; [|done]. rewrite Hseq, length_app, length_replicate.
    set (l := portsOf h ec). set (k := (Z.to_nat n - length l)%nat).
    destruct (i <? 0) eqn:Hneg.
    { apply Z.ltb_lt in Hneg. rewrite !(proj2 (Z.leb_gt _ _)) by lia. done. }
    apply Z.ltb_ge in Hneg.
    destruct (Z.of_nat (length l) <=? i) eqn:Hold.
    + apply Z.leb_le in Hold.
      destruct (Z.of_nat (length l + k) <=? i) eqn:Hnew; [done|].
      apply Z.leb_gt in Hnew. rewrite lookup_app_r by lia.
      rewrite lookup_replicate_2; [done|lia].
    + apply Z.leb_gt in Hold. rewrite (proj2 (Z.leb_gt _ _)) by lia.
      rewrite lookup_app_l by lia. done.
  - destruct (Z_le_gt_dec n (len h (ec_ports c))) as [Hle|Hgt].
    + exists (Returned tt), h. split; [by apply (growPorts_enough _ _ c)|].
      split; [by left|]. split; [done|]. split; [done|].
      by rewrite (port_portsOf h ec c i E).
    + exists (Panicked (runtimePanic lenOutOfRange)), h.
      split; [apply (growPorts_too_long _ _ c); [done|lia|lia]|].
      split; [by right|]. split; [intros Hlimit; lia|]. split; [done|].
      by rewrite (port_portsOf h ec c i E).
Qed.

(** [port] on a forked context answers as on the parent, up to the copy:
    nil where the parent has no entry, and where the parent has a Port a
    new Port with its file and channel that closes neither. *)
Theorem port_of_forked_context h ec c newContext i :
  deref (hCtx h) ec = Some c →
  Forall (present h) (elems h (ec_ports c)) →
  0 ≤ i →
  ∃ child h',
    fork ec newContext h = (Returned child, h') ∧
    (len h (ec_ports c) ≤ i → port child i h' = (Returned None, h')) ∧
    (∀ p q, port ec i h = (Returned p, h) → deref (hPort h) p = Some q →
       ∃ p', port child i h' = (Returned p', h') ∧
             deref (hPort h) p' = None ∧
             deref (hPort h') p' = Some (mkPort (File q) (Chan q) false false)).
Proof.
  intros E Hall Hi.
  destruct (fork_present h ec c newContext E Hall) as (qs & Hqs & Hrun).
  pose proof (Forall2_length _ _ _ Hqs) as Hlen.
  pose proof (forkedState_child h c newContext qs) as Hchild.
  assert (Hp : portsOf h ec = elems h (ec_ports c)) by (unfold portsOf; by rewrite E).
  assert (Hports : portsOf (forkedState h c newContext qs) (Some (length (hCtx h)))
                   = Some <$> seq (length (hPort h)) (length qs)).
  { unfold portsOf. rewrite Hchild. unfold elems, deref. simpl.
    rewrite lookup_app_r by lia. by rewrite Nat.sub_diag. }
  eexists _, _. split; [exact Hrun|].
  rewrite (port_portsOf _ _ _ i Hchild), Hports, length_fmap, length_seq.
  split.
  - intros Hbeyond. unfold len in Hbeyond. rewrite (proj2 (Z.leb_le _ _)) by lia. done.
  - intros p q Hport Hq. rewrite (port_portsOf h ec c i E), Hp in Hport.
    destruct (Z.of_nat (length (elems h (ec_ports c))) <=? i) eqn:Hle.
    { injection Hport as <-. done. }
    apply Z.leb_gt in Hle. rewrite (proj2 (Z.ltb_ge _ _)) in Hport by lia.
    destruct (elems h (ec_ports c) !! Z.to_nat i) as [p0|] eqn:Hp0; [|done].
    injection Hport as ->.
    destruct (Forall2_lookup_l _ _ _ _ _ Hqs Hp0) as (q' & Hq' & Hpq).
    assert (q' = q) as -> by congruence.
    exists (Some (length (hPort h) + Z.to_nat i)%nat).
    rewrite (proj2 (Z.leb_gt _ _)) by lia. rewrite (proj2 (Z.ltb_ge _ _)) by lia.
    rewrite list_lookup_fmap, lookup_seq_lt by lia. split; [done|]. split.
    + unfold deref. simpl. apply lookup_ge_None_2. lia.
    + unfold deref. simpl. rewrite lookup_app_r by lia.
      replace (length (hPort h) + Z.to_nat i - length (hPort h))%nat
        with (Z.to_nat i) by lia.
      by rewrite list_lookup_fmap, Hq'.
Qed.

(** ** Protected evaluation, nested *)

(** [PEval] never ends in the panic of a [throw], whatever the operation
    does; so an exception raised below a [PEval] that an operation makes
    itself is the result of that inner [PEval], recovered once, and the
    operation goes on. *)
Theorem PEval_stops_every_exception (ec : ptr) (op : Op) (h : State) :
  (∀ e h1, PEval ec op h ≠ (Panicked (exception e), h1)) ∧
  (∀ (outer : ptr) e h1,
     op ec h = (Panicked (exception e), h1) →
     PEval outer (fun _ => PEval ec op ≫= fun _ => ret tt) h
       = (Returned None, setRecovered (fun l => l ++ [exception e]) h1)).
Proof.
  split.
  - intros e h1. unfold PEval. destruct (op ec h) as [[[]|[e'|r]] h2]; simpl; discriminate.
  - intros outer e h1 Hop. apply PEval_returned.
    by rewrite (bind_returned _ _ _ _ _ (PEval_exception ec op h e h1 Hop)).
Qed.

(** ** Words *)

Section WordsFacts.

Variable fmtArg : Type.
Variable Sprintf : string → list fmtArg → string.
Variable argString : string → fmtArg.
Variable argInt : Z → fmtArg.
Variable argValue : Value → fmtArg.

(** [mustSingleString] returns the string of a list that is one string
    and changes nothing.  On every other list it raises the error of
    [errorf] at the position given, for the count when the list is not of
    length one, and else for the value that is no string; it never
    faults on the access to the first element. *)
Theorem mustSingleString_one_string_or_error h ec c vs what p :
  deref (hCtx h) ec = Some c →
  (∀ s, vs = [VString s] →
     mustSingleString fmtArg Sprintf argString argInt argValue ec vs what p h
       = (Returned s, h)) ∧
  (length vs ≠ 1%nat →
     mustSingleString fmtArg Sprintf argString argInt argValue ec vs what p h
       = (Panicked (exception
            (raised fmtArg Sprintf (ec_name c) (ec_context c) (ec_text c) p
                    "Expect exactly one word for %s, got %d"
                    [argString what; argInt (Z.of_nat (length vs))])), h)) ∧
  (∀ x, vs = [x] → (∀ s, x ≠ VString s) →
     mustSingleString fmtArg Sprintf argString argInt argValue ec vs what p h
       = (Panicked (exception
            (raised fmtArg Sprintf (ec_name c) (ec_context c) (ec_text c) p
                    "Expect string for %s, got %s"
                    [argString what; argValue x])), h)).
Proof.
  intros E. split; [|split].
  - intros s ->. reflexivity.
  - intros Hlen. unfold mustSingleString.
    rewrite decide_True by lia.
    by rewrite (bind_panicked _ _ _ _ _ (errorf_raises fmtArg Sprintf h ec c p _ _ E)).
  - intros x -> Hx. unfold mustSingleString.
    rewrite decide_False by (simpl; lia).
    rewrite (bind_returned (ret tt) _ h tt h eq_refl).
    rewrite (bind_returned (first [x]) _ h x h eq_refl).
    destruct x as [s|b| |l|b]; [by destruct (Hx s)| | | |];
      cbn [negb];
      by rewrite (bind_panicked _ _ _ _ _ (errorf_raises fmtArg Sprintf h ec c p _ _ E)).
Qed.

End WordsFacts.

(** ** The entry points *)

Section EntryFacts.

Variable Chunk : Type.
Variable compile : string → string → scope → Chunk → Op * option error.

Lemma Compile_runs h ev e name text n :
  deref (hEvaler h) ev = Some e →
  Compile Chunk compile ev name text n h =
    (Returned (compile name text (makeScope (nsAt h (ev_global e))) n), h).
Proof.
  intros E. unfold Compile.
  by rewrite (bind_returned _ _ _ _ _ (load_some hEvaler ev e h E)).
Qed.

(** When the compiler reports an error, [Eval] returns that error as it
    is and leaves the store as it was: no context is made and nothing
    runs.  On a nil Evaler it faults before it compiles. *)
Theorem Eval_compile_error_untouched h ev name text n ports :
  (∀ e op err,
     deref (hEvaler h) ev = Some e →
     compile name text (makeScope (nsAt h (ev_global e))) n = (op, Some err) →
     Evaler_Eval Chunk compile ev name text n ports h = (Returned (Some err), h)) ∧
  (deref (hEvaler h) ev = None →
   Evaler_Eval Chunk compile ev name text n ports h
     = (Panicked (runtimePanic nilDereference), h)).
Proof.
  split.
  - intros e op err E Hc. unfold Evaler_Eval.
    rewrite (bind_returned _ _ _ _ _ (Compile_runs h ev e name text n E)).
    by rewrite Hc.
  - intros E. unfold Evaler_Eval.
    assert (Hc : Compile Chunk compile ev name text n h
                 = (Panicked (runtimePanic nilDereference), h)).
    { unfold Compile. by rewrite (bind_panicked _ _ _ _ _ (load_none hEvaler ev h E)). }
    by rewrite (bind_panicked _ _ _ _ _ Hc).
Qed.

(** When the compiler gives an operation, [Eval] runs it in a new
    context labelled top, on the global namespace and on the very ports
    of the caller, and returns nil when the operation returns, the error
    when it throws one, and for an [errorf] of the operation the error
    with the name, the label top, the text and the position. *)
Theorem Eval_runs_at_top h ev e name text n ports op :
  deref (hEvaler h) ev = Some e →
  compile name text (makeScope (nsAt h (ev_global e))) n = (op, None) →
  let ec := Some (length (hCtx h)) in
  let h0 := topState h ev e name text ports in
  deref (hCtx h) ec = None ∧
  deref (hCtx h0) ec
    = Some (mkEvalCtx ev name text "top" (ev_global e) (Some (length (hNs h))) ports) ∧
  (∀ h1, op ec h0 = (Returned tt, h1) →
     Evaler_Eval Chunk compile ev name text n ports h = (Returned None, h1)) ∧
  (∀ err h1, op ec h0 = (Panicked (exception err), h1) →
     Evaler_Eval Chunk compile ev name text n ports h
       = (Returned (Some err), setRecovered (fun l => l ++ [exception err]) h1)) ∧
  (∀ fmtArg (Sprintf : string → list fmtArg → string) p format args,
     op = (fun ec => errorf fmtArg Sprintf ec p format args) →
     ∃ h1, Evaler_Eval Chunk compile ev name text n ports h
             = (Returned (Some (raised fmtArg Sprintf name "top" text p format args)), h1)).
Proof.
  intros E Hc ec h0.
  assert (Hrun : Evaler_Eval Chunk compile ev name text n ports h = PEval ec op h0).
  { unfold Evaler_Eval.
    rewrite (bind_returned _ _ _ _ _ (Compile_runs h ev e name text n E)).
    rewrite Hc. simpl.
    by rewrite (bind_returned _ _ _ _ _ (NewTopEvalCtx_ok h ev e name text ports E)). }
  split; [unfold deref; simpl; by apply lookup_ge_None_2|].
  split; [apply topState_ctx|]. rewrite Hrun. split; [|split].
  - intros h1. apply PEval_returned.
  - intros err h1. apply PEval_exception.
  - intros fmtArg Sprintf p format args ->. eexists.
    apply PEval_exception.
    apply (errorf_raises fmtArg Sprintf h0 ec _ p format args (topState_ctx _ _ _ _ _ _)).
Qed.

Variable ReadFile : string → string * option error.
Variable Valid : string → bool.
Variable Parse : string → Chunk * option error.
Variable EvalInteractive : ptr → string → Chunk → Exec (option error).

(** [Source] evaluates nothing and leaves the store as it was when the
    file cannot be read, when its bytes are not valid UTF-8, or when they
    do not parse; it returns the error of the read, the error that names
    the file as not valid UTF-8, or the error of the parser, in this
    order of precedence.  Otherwise it evaluates exactly the bytes of the
    file with the chunk parsed from them. *)
Theorem Source_errors_before_evaluation h ev fname :
  (∀ bytes err, ReadFile fname = (bytes, Some err) →
     Source Chunk ReadFile Valid Parse EvalInteractive ev fname h
       = (Returned (Some err), h)) ∧
  (∀ bytes, ReadFile fname = (bytes, None) → Valid bytes = false →
     Source Chunk ReadFile Valid Parse EvalInteractive ev fname h
       = (Returned (Some (otherError (fname +:+ ": source is not valid UTF-8"))), h)) ∧
  (∀ bytes n err, ReadFile fname = (bytes, None) → Valid bytes = true →
     Parse bytes = (n, Some err) →
     Source Chunk ReadFile Valid Parse EvalInteractive ev fname h
       = (Returned (Some err), h)) ∧
  (∀ bytes n, ReadFile fname = (bytes, None) → Valid bytes = true →
     Parse bytes = (n, None) →
     Source Chunk ReadFile Valid Parse EvalInteractive ev fname h
       = EvalInteractive ev bytes n h).
Proof.
  unfold Source, readFileUTF8, SourceText. repeat split.
  - intros bytes err ->. done.
  - intros bytes -> ->. done.
  - intros bytes n err -> -> . simpl. by intros ->.
  - intros bytes n -> ->. simpl. by intros ->.
Qed.

End EntryFacts.

(** ** The interactive output relay, further *)

Module RelayFurther.
Import Relay.

Section Further.

Variable Repr : Value → string.
Variable todo : list action.

Lemma written_caller out s : written (out ++ [(Caller, s)]) = written out ++ [s].
Proof. unfold written. by rewrite omap_app. Qed.

Lemma written_worker out s : written (out ++ [(Worker, s)]) = written out.
Proof. unfold written. rewrite omap_app. simpl. by rewrite app_nil_r. Qed.

Lemma writes_step t st st' :
  step Repr t st = Some st' →
  written (stdout st') ++ unwritten (caller st')
  = written (stdout st) ++ unwritten (caller st) ∨
  (∃ r, caller st' = Unwinding r).
Proof.
  destruct st as [ch closed done out c w]. destruct t; simpl.
  - unfold stepCaller. simpl.
    destruct c as [[|[v|s] rest] r|err|err|err|r]; simpl;
      repeat case_match; intros; simplify_eq/=; eauto.
    left. by rewrite written_caller, <- app_assoc.
  - unfold stepWorker. simpl.
    destruct w; simpl; repeat case_match; intros; simplify_eq/=; eauto.
    left. by rewrite written_worker.
Qed.

Lemma unwinding_stays t st st' r :
  step Repr t st = Some st' → caller st = Unwinding r → caller st' = Unwinding r.
Proof.
  destruct st as [ch closed done out c w]. destruct t; simpl.
  - unfold stepCaller. simpl. by intros ? ->.
  - unfold stepWorker. simpl.
    destruct w; simpl; repeat case_match; intros; by simplify_eq/=.
Qed.

Lemma unwinding_run sched : ∀ st st' r,
  run Repr sched st = Some st' → caller st = Unwinding r → caller st' = Unwinding r.
Proof.
  induction sched as [|t sched IH]; intros st st' r Hrun Hr; simpl in Hrun.
  - by simplify_eq.
  - destruct (step Repr t st) as [st1|] eqn:Hstep; [|done]. simpl in Hrun.
    apply (IH st1 st' r Hrun). by eapply unwinding_stays.
Qed.

Lemma writes_run sched : ∀ st st',
  run Repr sched st = Some st' →
  (∀ r, caller st' ≠ Unwinding r) →
  written (stdout st') ++ unwritten (caller st')
  = written (stdout st) ++ unwritten (caller st).
Proof.
  induction sched as [|t sched IH]; intros st st' Hrun Hnot; simpl in Hrun.
  - by simplify_eq.
  - destruct (step Repr t st) as [st1|] eqn:Hstep; [|done]. simpl in Hrun.
    rewrite (IH st1 st' Hrun Hnot).
    destruct (writes_step t st st1 Hstep) as [Heq|[r Hr]]; [done|].
    destruct (Hnot r). by apply (unwinding_run sched st1).
Qed.

(** An evaluation that returns can always be brought to its end: from
    every point that a schedule reaches, some continuation makes
    [EvalInteractive] return the outcome of the evaluation, with the line
    of every value sent and every write to the file on the output. *)
Theorem EvalInteractive_can_always_return err sched st :
  run Repr sched (EvalInteractive todo (Returned err)) = Some st →
  ∃ more st',
    run Repr more st = Some st' ∧
    caller st' = Return_ err ∧
    rendered (stdout st') = line Repr <$> sent todo ∧
    written (stdout st') = writes todo.
Proof.
  intros Hrun.
  pose proof (RelayFacts.inv_run Repr todo _ sched _ _
                (RelayFacts.inv_init Repr todo (Returned err)) Hrun) as Hinv.
  assert (Hreach : ∀ k st0, (fuel st0 ≤ k)%nat → inv Repr todo (Returned err) st0 →
            ∃ more st', run Repr more st0 = Some st' ∧ caller st' = Return_ err).
  { induction k as [|k IH]; intros st0 Hk Hinv0.
    - destruct st0 as [ch closed done out c w]. unfold fuel in Hk. simpl in Hk.
      destruct Hinv0 as (_ & _ & Hpc). unfold coherent in Hpc. simpl in Hpc.
      destruct c as [? ?|?|?|err'|r]; try (simpl in Hk; lia).
      + exists [], (mkRelay ch closed done out (Return_ err') w). split; [done|].
        simpl. destruct Hpc as (Heq & _). by simplify_eq.
      + by destruct Hpc as (Heq & _).
    - destruct (caller st0) as [? ?|?|?|err'|r] eqn:Hc.
      5:{ destruct Hinv0 as (_ & _ & Hpc). unfold coherent in Hpc. rewrite Hc in Hpc.
          by destruct Hpc as (Heq & _). }
      4:{ exists [], st0. split; [done|]. rewrite Hc.
          destruct Hinv0 as (_ & _ & Hpc). unfold coherent in Hpc. rewrite Hc in Hpc.
          destruct Hpc as (Heq & _). by simplify_eq. }
      all: destruct (RelayFacts.inv_progress Repr todo _ st0 Hinv0) as (t & st1 & Hstep);
        [intros e' He'; congruence|intros r' Hr'; congruence|];
        pose proof (RelayFacts.step_fuel Repr t st0 st1 Hstep) as Hfuel;
        destruct (IH st1) as (more & st' & Hmore & Hret);
        [lia
        |destruct t; [by eapply RelayFacts.inv_stepCaller|by eapply RelayFacts.inv_stepWorker]
        |];
        exists (t :: more), st'; split; [|done]; simpl; by rewrite Hstep. }
  destruct (Hreach (fuel st) st (le_n _) Hinv) as (more & st' & Hmore & Hret).
  exists more, st'. split; [done|]. split; [done|].
  assert (Hall : run Repr (sched ++ more) (EvalInteractive todo (Returned err)) = Some st').
  { clear -Hrun Hmore. revert Hrun. generalize (EvalInteractive todo (Returned err)).
    induction sched as [|t sched IH]; intros s0 Hrun; simpl in *.
    - by simplify_eq.
    - destruct (step Repr t s0) as [s1|]; [|done]. simpl in *. by apply IH. }
  split.
  - pose proof (RelayFacts.inv_run Repr todo _ _ _ _
                  (RelayFacts.inv_init Repr todo (Returned err)) Hall) as (Hdata & _ & Hpc).
    unfold coherent in Hpc. rewrite Hret in Hpc, Hdata.
    destruct Hpc as (_ & _ & _ & Hw & Hch). rewrite Hw, Hch in Hdata.
    simpl in Hdata. by rewrite app_nil_r in Hdata.
  - pose proof (writes_run _ _ _ Hall) as Hwrites. rewrite Hret in Hwrites.
    simpl in Hwrites. rewrite app_nil_r in Hwrites. apply Hwrites. by intros r.
Qed.

(** When the evaluation panics, [EvalInteractive] never returns and
    never closes the channel: the worker never leaves its loop and
    [outDone] stays open, and once the caller unwinds and the worker
    waits on the empty channel no thread can move again. *)
Theorem EvalInteractive_panic_strands_worker r sched st :
  run Repr sched (EvalInteractive todo (Panicked r)) = Some st →
  (∀ err, caller st ≠ Return_ err) ∧
  (∀ r', caller st = Unwinding r' → r' = r) ∧
  outChClosed st = false ∧ outDoneClosed st = false ∧
  ranging (worker st) = true ∧
  (∀ r', caller st = Unwinding r' → outCh st = [] → worker st = Range →
         ∀ t, step Repr t st = None).
Proof.
  intros Hrun.
  pose proof (RelayFacts.inv_run Repr todo _ sched _ _
                (RelayFacts.inv_init Repr todo (Panicked r)) Hrun) as (_ & _ & Hpc).
  unfold coherent in Hpc. destruct st as [ch closed done out c w]. simpl in *.
  destruct c as [? ?|?|?|?|r0];
    try (destruct Hpc as (Heq & _); discriminate Heq).
  - destruct Hpc as (_ & -> & -> & ->). repeat split; try done.
  - destruct Hpc as (Heq & -> & -> & ->). simplify_eq. repeat split; try done.
    + intros r' Heq. by simplify_eq.
    + intros r' _ -> -> t. by destruct t.
Qed.

(** The evaluation runs ahead of the output by 33 values at most: of the
    values it has sent, all but the 32 that the channel can hold and the
    one in the hand of the worker have their line written. *)
Theorem EvalInteractive_backpressure res sched st :
  run Repr sched (EvalInteractive todo res) = Some st →
  (length (sent todo) ≤ length (rendered (stdout st)) + length (unsent (caller st)) + 33)%nat.
Proof.
  intros Hrun.
  pose proof (RelayFacts.inv_run Repr todo _ sched _ _
                (RelayFacts.inv_init Repr todo res) Hrun) as (Hdata & Hcap & _).
  apply (f_equal length) in Hdata.
  rewrite length_app, !length_fmap, !length_app in Hdata.
  unfold outChanSize in Hcap.
  assert (length (inHand (worker st)) ≤ 1)%nat by (destruct (worker st); simpl; lia).
  lia.
Qed.

(** The writes of the evaluation to the file reach the output in the
    order made, whatever the worker writes between them; and when
    [EvalInteractive] has returned, all of them are there and no thread
    can move: nothing is written after the return. *)
Theorem EvalInteractive_writes_then_quiet res sched st :
  run Repr sched (EvalInteractive todo res) = Some st →
  (∀ r, caller st ≠ Unwinding r) →
  (∃ k, written (stdout st) = take k (writes todo)) ∧
  (∀ err, caller st = Return_ err →
     written (stdout st) = writes todo ∧ ∀ t, step Repr t st = None).
Proof.
  intros Hrun Hnot. pose proof (writes_run _ _ _ Hrun Hnot) as Hwrites.
  simpl in Hwrites. split.
  - exists (length (written (stdout st))). rewrite <- Hwrites. by rewrite take_app_length.
  - intros err Hret. rewrite Hret in Hwrites. simpl in Hwrites.
    rewrite app_nil_r in Hwrites. split; [done|].
    pose proof (RelayFacts.inv_run Repr todo _ sched _ _
                  (RelayFacts.inv_init Repr todo res) Hrun) as (_ & _ & Hpc).
    unfold coherent in Hpc. rewrite Hret in Hpc. destruct Hpc as (_ & _ & _ & Hw & _).
    intros [|]; simpl.
    + unfold stepCaller. by rewrite Hret.
    + unfold stepWorker. by rewrite Hw.
Qed.

End Further.

End RelayFurther.

(** ** Construction of the Evaler, further *)

Lemma bindAll_app fns1 : ∀ base fns2 g,
  bindAll base (fns1 ++ fns2) g = bindAll (base + length fns1) fns2 (bindAll base fns1 g).
Proof.
  induction fns1 as [|b fns1 IH]; intros base fns2 g; simpl.
  - by rewrite Nat.add_0_r.
  - rewrite IH. f_equal. lia.
Qed.

(** When builtins share a name, the one that comes last in the table is
    the one that the prefixed name holds. *)
Theorem NewEvaler_last_builtin_of_a_name_wins host before b after st h :
  (∀ b', b' ∈ after → Name b' ≠ Name b) →
  ∃ ev e g h',
    NewEvaler host (before ++ b :: after) st h = (Returned ev, h') ∧
    deref (hEvaler h') ev = Some e ∧
    deref (hNs h') (ev_global e) = Some g ∧
    valueOf h' g (FnPrefix +:+ Name b) = Some (VBuiltinFn b).
Proof.
  intros Hlast.
  set (fns := before ++ b :: after).
  set (n := length (hBox h)).
  exists (Some (length (hEvaler h))),
         (mkEvaler (Some (length (hNs h))) ∅ (resolvedPaths host) st None),
         (bindAll (n + 5) fns (fixedGlobals n)), (builtState host fns st h).
  split; [apply NewEvaler_runs|]. split.
  { unfold deref. simpl. rewrite lookup_app_r by lia. by rewrite Nat.sub_diag. }
  split.
  { unfold deref. simpl. rewrite lookup_app_r by lia. by rewrite Nat.sub_diag. }
  unfold valueOf. fold (fnKey b). unfold fns. rewrite bindAll_app. cbn [bindAll].
  rewrite bindAll_lookup_other.
  - rewrite lookup_insert_eq. cbn [mbind option_bind].
    replace (n + 5 + length before)%nat with (n + (5 + length before))%nat by lia.
    unfold n. rewrite builtState_box. simpl.
    rewrite fmap_app. simpl. rewrite lookup_app_r by (rewrite length_fmap; lia).
    by rewrite length_fmap, Nat.sub_diag.
  - intros b' Hb' Heq. apply (Hlast b' Hb'). unfold fnKey in Heq. by simplify_eq.
Qed.

(** [NewEvaler] only makes new objects: every context, Port, array,
    namespace, Evaler and cell that there was is as it was.  The search
    path of the Evaler it returns is never empty. *)
Theorem NewEvaler_only_allocates host builtinFns st h :
  ∃ ev e h',
    NewEvaler host builtinFns st h = (Returned ev, h') ∧
    deref (hEvaler h') ev = Some e ∧
    ev_searchPaths e ≠ [] ∧
    hCtx h' = hCtx h ∧ hPort h' = hPort h ∧ hArr h' = hArr h ∧
    recovered h' = recovered h ∧
    (∀ a m, hNs h !! a = Some m → hNs h' !! a = Some m) ∧
    (∀ a e0, hEvaler h !! a = Some e0 → hEvaler h' !! a = Some e0) ∧
    (∀ a v, hBox h !! a = Some v → hBox h' !! a = Some v).
Proof.
  eexists _, _, _. split; [apply NewEvaler_runs|]. split.
  { unfold deref. simpl. rewrite lookup_app_r by lia. by rewrite Nat.sub_diag. }
  split.
  { simpl. unfold resolvedPaths. destruct (environ host !! "PATH") as [path|]; [|done].
    destruct (decide (path = "")); [done|]. apply Split_nonempty. }
  do 4 (split; [done|]). simpl.
  split; [|split]; intros a x Ha; by apply lookup_app_l_Some.
Qed.

(** * The further statements at the sample states *)

Lemma makeScope_names_any_order_witness :
  makeScopeOver (reverse (map_to_list (nsAt sampleState (Some 0%nat))).*1)
    = makeScope (nsAt sampleState (Some 0%nat)) ∧
  dom (makeScope (nsAt sampleState (Some 0%nat))) = dom (nsAt sampleState (Some 0%nat)).
Proof.
  destruct (makeScope_names_any_order (nsAt sampleState (Some 0%nat))
              (reverse (map_to_list (nsAt sampleState (Some 0%nat))).*1))
    as (Horder & Hdom & _).
  - apply reverse_Permutation.
  - split; assumption.
Defined.

Lemma top_context_sees_global_witness :
  ∃ h', (ec ← NewTopEvalCtx (Some 0%nat) "script.elv" "put a" (Some 0%nat);
         gl ← Global (Some 0%nat);
         mapassign gl "z" (ptrVariable 1%nat);;
         ResolveVar ec "" "z") sampleState = (Returned (Some (ptrVariable 1%nat)), h').
Proof.
  destruct (top_context_sees_global sampleState (Some 0%nat)
              (mkEvaler (Some 0%nat) {["re" := Some 2%nat]} ["/bin"] None None)
              0%nat {["x" := ptrVariable 0%nat]} "script.elv" "put a" (Some 0%nat)
              "" "z" (ptrVariable 1%nat) eq_refl eq_refl eq_refl (or_introl eq_refl) eq_refl)
    as (h' & Hrun & _).
  exists h'. exact Hrun.
Defined.

Lemma new_evaler_top_context_resolves_witness :
  (∃ a h', resolveAtTop sampleHost sampleBuiltins None "script.elv" "put a" None "" "pid"
             sampleState = (Returned (Some (ptrVariable a)), h') ∧
           hBox h' !! a = Some (VString (Itoa 4242))) ∧
  (∃ a h', resolveAtTop sampleHost sampleBuiltins None "script.elv" "put a" None ""
             "&echo" sampleState = (Returned (Some (ptrVariable a)), h') ∧
           hBox h' !! a = Some (VBuiltinFn (mkBuiltinFn "echo" 1))).
Proof.
  destruct (new_evaler_top_context_resolves sampleHost sampleBuiltins None sampleState
              "script.elv" "put a" None) as (Hfixed & Hfns & _).
  split.
  - apply (Hfixed "pid" (VString (Itoa 4242))). left.
  - apply (Hfns ltac:(repeat constructor; set_solver) (mkBuiltinFn "echo" 1)).
    right. left.
Defined.

Lemma fork_resolves_as_parent_witness :
  ∃ child h',
    fork (Some 0%nat) "child" sampleState = (Returned child, h') ∧
    ResolveVar child "" "y" h' = (Returned (Some (ptrVariable 1%nat)), h').
Proof.
  destruct (fork_resolves_as_parent sampleState (Some 0%nat) sampleCtx "child"
              eq_refl sample_ports_present) as (child & h' & Hrun & Hsame).
  exists child, h'. split; [exact Hrun|].
  destruct (Hsame "" "y") as [Hchild _]. rewrite Hchild. reflexivity.
Defined.

Lemma fork_then_growPorts_leaves_parent_witness :
  ∃ child h' h'',
    fork (Some 0%nat) "child" sampleState = (Returned child, h') ∧
    growPorts child 5 h' = (Returned tt, h'') ∧
    portsOf h'' (Some 0%nat) = [Some 0%nat; Some 1%nat] ∧
    length (portsOf h'' child) = 5%nat.
Proof.
  assert (Hfive : 5 * ptrSize ≤ maxAlloc) by (vm_compute; discriminate).
  destruct (fork_then_growPorts_leaves_parent sampleState (Some 0%nat) sampleCtx "child" 5
              eq_refl sample_ports_present (or_intror (ex_intro _ _ eq_refl)))
    as (child & h' & r & h'' & Hfork & Hgrow & _ & Hreturns & _ & Hparent & _).
  destruct (Hreturns Hfive) as [-> Hlen].
  exists child, h', h''. repeat split; assumption.
Defined.

Lemma growPorts_invisible_to_port_witness :
  ∃ h', growPorts (Some 0%nat) 4 sampleState = (Returned tt, h') ∧
        (port (Some 0%nat) 3 h').1 = Returned None ∧
        (port (Some 0%nat) 1 h').1 = Returned (Some 1%nat).
Proof.
  assert (Hfour : 4 * ptrSize ≤ maxAlloc) by (vm_compute; discriminate).
  destruct (growPorts_invisible_to_port sampleState (Some 0%nat) sampleCtx 4 3 eq_refl)
    as (r & h' & Hrun & _ & Hreturns & Hsame3 & _).
  destruct (growPorts_invisible_to_port sampleState (Some 0%nat) sampleCtx 4 1 eq_refl)
    as (r1 & h1 & Hrun1 & _ & _ & Hsame1 & _).
  rewrite (Hreturns Hfour) in Hrun.
  exists h'. split; [exact Hrun|]. split; [exact Hsame3|].
  rewrite Hrun in Hrun1. injection Hrun1 as _ <-. exact Hsame1.
Defined.

Lemma port_of_forked_context_witness :
  ∃ child h',
    fork (Some 0%nat) "child" sampleState = (Returned child, h') ∧
    ∃ p', port child 1 h' = (Returned p', h') ∧
          deref (hPort h') p' = Some (mkPort (Some 1%nat) (Some 0%nat) false false).
Proof.
  destruct (port_of_forked_context sampleState (Some 0%nat) sampleCtx "child" 1
              eq_refl sample_ports_present ltac:(discriminate))
    as (child & h' & Hrun & _ & Hcopy).
  destruct (Hcopy (Some 1%nat) (mkPort (Some 1%nat) (Some 0%nat) true true)
              eq_refl eq_refl) as (p' & Hport & _ & Hp').
  exists child, h'. split; [exact Hrun|]. exists p'. split; assumption.
Defined.

Lemma PEval_stops_every_exception_witness :
  PEval None (fun _ => PEval (Some 0%nat) (fun _ => throw (flow "break")) ≫= fun _ => ret tt)
        sampleState
  = (Returned None, setRecovered (fun l => l ++ [exception (flow "break")]) sampleState).
Proof.
  destruct (PEval_stops_every_exception (Some 0%nat) (fun _ => throw (flow "break"))
              sampleState) as (_ & Hnested).
  exact (Hnested None (flow "break") sampleState eq_refl).
Defined.

Lemma mustSingleString_one_string_or_error_witness :
  mustSingleString string sampleSprintf id sampleInt sampleRepr (Some 0%nat)
                   [VString "a"] "redirection" 3 sampleState
    = (Returned "a", sampleState) ∧
  (∃ e, mustSingleString string sampleSprintf id sampleInt sampleRepr (Some 0%nat)
                         [] "redirection" 3 sampleState
        = (Panicked (exception e), sampleState)) ∧
  (∃ e, mustSingleString string sampleSprintf id sampleInt sampleRepr (Some 0%nat)
                         [VBool true] "redirection" 3 sampleState
        = (Panicked (exception e), sampleState)).
Proof.
  split; [|split].
  - destruct (mustSingleString_one_string_or_error string sampleSprintf id sampleInt
                sampleRepr sampleState (Some 0%nat) sampleCtx [VString "a"] "redirection" 3
                eq_refl) as (Hone & _).
    exact (Hone "a" eq_refl).
  - destruct (mustSingleString_one_string_or_error string sampleSprintf id sampleInt
                sampleRepr sampleState (Some 0%nat) sampleCtx [] "redirection" 3
                eq_refl) as (_ & Hcount & _).
    eexists. apply Hcount. discriminate.
  - destruct (mustSingleString_one_string_or_error string sampleSprintf id sampleInt
                sampleRepr sampleState (Some 0%nat) sampleCtx [VBool true] "redirection" 3
                eq_refl) as (_ & _ & Hkind).
    eexists. apply (Hkind (VBool true) eq_refl). discriminate.
Defined.

Lemma Eval_compile_error_untouched_witness :
  Evaler_Eval unit sampleCompile (Some 0%nat) "script.elv" "put" tt (Some 0%nat) sampleState
    = (Returned (Some (otherError "compile error")), sampleState) ∧
  Evaler_Eval unit sampleCompile None "script.elv" "put a" tt (Some 0%nat) sampleState
    = (Panicked (runtimePanic nilDereference), sampleState).
Proof.
  split.
  - destruct (Eval_compile_error_untouched unit sampleCompile sampleState (Some 0%nat)
                "script.elv" "put" tt (Some 0%nat)) as (Herr & _).
    exact (Herr (mkEvaler (Some 0%nat) {["re" := Some 2%nat]} ["/bin"] None None)
                (fun _ => ret tt) (otherError "compile error") eq_refl eq_refl).
  - destruct (Eval_compile_error_untouched unit sampleCompile sampleState None
                "script.elv" "put a" tt (Some 0%nat)) as (_ & Hnil).
    exact (Hnil eq_refl).
Defined.

Lemma Eval_runs_at_top_witness :
  ∃ h1, Evaler_Eval unit sampleCompile (Some 0%nat) "script.elv" "put a" tt (Some 0%nat)
                    sampleState = (Returned None, h1) ∧
        deref (hCtx h1) (Some 1%nat)
          = Some (mkEvalCtx (Some 0%nat) "script.elv" "put a" "top" (Some 0%nat)
                            (Some 3%nat) (Some 0%nat)).
Proof.
  destruct (Eval_runs_at_top unit sampleCompile sampleState (Some 0%nat)
              (mkEvaler (Some 0%nat) {["re" := Some 2%nat]} ["/bin"] None None)
              "script.elv" "put a" tt (Some 0%nat) (fun _ => ret tt) eq_refl eq_refl)
    as (_ & Hctx & Hret & _).
  eexists. split; [apply Hret; reflexivity|exact Hctx].
Defined.

Lemma Source_errors_before_evaluation_witness :
  Source unit sampleReadFile sampleValid sampleParse sampleEvalInteractive
         (Some 0%nat) "missing.elv" sampleState
    = (Returned (Some (otherError "no such file")), sampleState) ∧
  Source unit sampleReadFile sampleValid sampleParse sampleEvalInteractive
         (Some 0%nat) "bin.elv" sampleState
    = (Returned (Some (otherError "bin.elv: source is not valid UTF-8")), sampleState) ∧
  Source unit sampleReadFile sampleValid sampleParse sampleEvalInteractive
         (Some 0%nat) "rc.elv" sampleState
    = sampleEvalInteractive (Some 0%nat) "put a" tt sampleState.
Proof.
  destruct (Source_errors_before_evaluation unit sampleReadFile sampleValid sampleParse
              sampleEvalInteractive sampleState (Some 0%nat) "missing.elv") as (Hread & _).
  destruct (Source_errors_before_evaluation unit sampleReadFile sampleValid sampleParse
              sampleEvalInteractive sampleState (Some 0%nat) "bin.elv") as (_ & Hutf & _).
  destruct (Source_errors_before_evaluation unit sampleReadFile sampleValid sampleParse
              sampleEvalInteractive sampleState (Some 0%nat) "rc.elv") as (_ & _ & _ & Hok).
  split; [|split].
  - exact (Hread "" (otherError "no such file") eq_refl).
  - exact (Hutf (String (Ascii.ascii_of_nat 255) "") eq_refl eq_refl).
  - exact (Hok "put a" tt eq_refl eq_refl eq_refl).
Defined.

Lemma EvalInteractive_can_always_return_witness :
  ∃ more st',
    Relay.run sampleRepr more (Relay.EvalInteractive sampleTodo (Returned None)) = Some st' ∧
    Relay.caller st' = Relay.Return_ None ∧
    written (Relay.stdout st') = ["x"].
Proof.
  destruct (RelayFurther.EvalInteractive_can_always_return sampleRepr sampleTodo None []
              (Relay.EvalInteractive sampleTodo (Returned None)) eq_refl)
    as (more & st' & Hrun & Hret & _ & Hwritten).
  exists more, st'. repeat split; assumption.
Defined.

Lemma EvalInteractive_panic_strands_worker_witness :
  ∃ st,
    Relay.run sampleRepr [Relay.Caller; Relay.Caller]
      (Relay.EvalInteractive [Relay.WriteFile "x"] (Panicked (runtimePanic nilDereference)))
      = Some st ∧
    Relay.caller st = Relay.Unwinding (runtimePanic nilDereference) ∧
    Relay.outChClosed st = false ∧
    ∀ t, Relay.step sampleRepr t st = None.
Proof.
  eexists. split; [reflexivity|]. split; [reflexivity|].
  destruct (RelayFurther.EvalInteractive_panic_strands_worker sampleRepr
              [Relay.WriteFile "x"] (runtimePanic nilDereference)
              [Relay.Caller; Relay.Caller] _ eq_refl)
    as (_ & _ & Hopen & _ & _ & Hstuck).
  split; [exact Hopen|]. exact (Hstuck _ eq_refl eq_refl eq_refl).
Defined.

Lemma EvalInteractive_backpressure_witness :
  ∃ st,
    Relay.run sampleRepr [Relay.Caller; Relay.Caller]
      (Relay.EvalInteractive sampleTodo (Returned None)) = Some st ∧
    (length (Relay.sent sampleTodo)
       ≤ length (Relay.rendered (Relay.stdout st)) + length (Relay.unsent (Relay.caller st))
         + 33)%nat.
Proof.
  eexists. split; [reflexivity|].
  exact (RelayFurther.EvalInteractive_backpressure sampleRepr sampleTodo (Returned None)
           [Relay.Caller; Relay.Caller] _ eq_refl).
Defined.

Lemma EvalInteractive_writes_then_quiet_witness :
  ∃ st,
    Relay.run sampleRepr sampleSchedule (Relay.EvalInteractive sampleTodo (Returned None))
      = Some st ∧
    written (Relay.stdout st) = ["x"] ∧
    ∀ t, Relay.step sampleRepr t st = None.
Proof.
  destruct (Relay.run sampleRepr sampleSchedule
              (Relay.EvalInteractive sampleTodo (Returned None))) as [st|] eqn:Hrun;
    [|vm_compute in Hrun; discriminate Hrun].
  assert (Hret : Relay.caller st = Relay.Return_ None).
  { vm_compute in Hrun. injection Hrun as <-. reflexivity. }
  assert (Hnot : ∀ r, Relay.caller st ≠ Relay.Unwinding r).
  { intros r. rewrite Hret. discriminate. }
  destruct (RelayFurther.EvalInteractive_writes_then_quiet sampleRepr sampleTodo
              (Returned None) sampleSchedule st Hrun Hnot) as (_ & Hdone).
  exists st. split; [reflexivity|]. exact (Hdone None Hret).
Defined.

Lemma NewEvaler_last_builtin_of_a_name_wins_witness :
  ∃ ev e g h',
    NewEvaler sampleHost [mkBuiltinFn "put" 0; mkBuiltinFn "put" 7; mkBuiltinFn "echo" 1]
              None sampleState = (Returned ev, h') ∧
    deref (hEvaler h') ev = Some e ∧
    deref (hNs h') (ev_global e) = Some g ∧
    valueOf h' g "&put" = Some (VBuiltinFn (mkBuiltinFn "put" 7)).
Proof.
  apply (NewEvaler_last_builtin_of_a_name_wins sampleHost [mkBuiltinFn "put" 0]
           (mkBuiltinFn "put" 7) [mkBuiltinFn "echo" 1] None sampleState).
  intros b' Hb'. apply elem_of_cons in Hb' as [->|Hb']; [discriminate|].
  by apply elem_of_nil in Hb'.
Defined.

Lemma NewEvaler_only_allocates_witness :
  ∃ ev e h',
    NewEvaler sampleHost sampleBuiltins None sampleState = (Returned ev, h') ∧
    deref (hEvaler h') ev = Some e ∧
    ev_searchPaths e ≠ [] ∧
    hBox h' !! 2%nat = Some VOK.
Proof.
  destruct (NewEvaler_only_allocates sampleHost sampleBuiltins None sampleState)
    as (ev & e & h' & Hrun & He & Hpaths & _ & _ & _ & _ & _ & _ & Hbox).
  exists ev, e, h'. split; [exact Hrun|]. split; [exact He|]. split; [exact Hpaths|].
  exact (Hbox 2%nat VOK eq_refl).
Defined.
